(** * usePreloadTokenImages: the token-image preload scheduler

    A shallow embedding of [packages/app/src/hooks/usePreloadTokenImages.ts]
    and the properties of its batching, pacing, de-duplication, failure
    handling and timer life cycle.

    The hook is asynchronous JavaScript running on a single-threaded event
    loop.  The embedding follows the code:

    - strings are byte strings, numbers used as chain ids are integers;
    - the mutable objects the code touches (the [preloadedSet] ref, the query
      cache, the caller's [vaults] array) are fields of an explicit [World];
    - the effects are threaded by a small monad that passes the world, collects
      the observable events of a computation in order and propagates thrown
      errors, so that [try]/[catch] and [Promise.allSettled] have something to
      catch;
    - an [async] function is split at its [await]: the part that runs
      synchronously inside the call, and the continuation that runs when the
      awaited promise settles;
    - what the browser answers to an image request (load or error, and how
      long it takes) is not decided by the code: it is a parameter. *)

From Stdlib Require Import Ascii String.
From stdpp Require Import base strings gmap list pretty sorting.

Local Open Scope string_scope.
Local Open Scope list_scope.
Local Open Scope nat_scope.

(** ** Values *)

(** [VaultData] comes from [@/hooks/useGetVaults]; the hook reads
    [vault.chainId] and [vault.asset.address] and nothing else. *)
Record Asset := { address : string }.
Record VaultData := { chainId : Z; asset : Asset }.

#[global] Instance Asset_eq_dec : EqDecision Asset.
Proof. solve_decision. Defined.
#[global] Instance VaultData_eq_dec : EqDecision VaultData.
Proof. solve_decision. Defined.

(** [new Error(message)]. *)
Record Error := { message : string }.

#[global] Instance Error_eq_dec : EqDecision Error.
Proof. solve_decision. Defined.

(** What [queryClient.getQueryData] may hand back: the code types it as
    [unknown] and only tests it for truthiness.  [undefined] (no data under
    the key) is the [None] of the lookup. *)
Inductive QueryData :=
| DString (s : string)
| DNumber (n : Z)
| DBoolean (b : bool)
| DNull
| DObject.

#[global] Instance QueryData_eq_dec : EqDecision QueryData.
Proof. solve_decision. Defined.

(** JavaScript truthiness, as [if (cachedData)] evaluates it. *)
Definition truthy (d : option QueryData) : bool :=
  match d with
  | None => false
  | Some (DString s) => negb (String.eqb s "")
  | Some (DNumber n) => negb (Z.eqb n 0)
  | Some (DBoolean b) => b
  | Some DNull => false
  | Some DObject => true
  end.

(** ** Strings *)

(** [String.prototype.toLowerCase] on the ASCII range, which is where token
    addresses (hexadecimal, [0x...]) live: [A]..[Z] go to [a]..[z], every
    other byte is kept. *)
Definition isUpper (c : ascii) : bool :=
  let n := N_of_ascii c in (65 <=? n)%N && (n <=? 90)%N.

Definition lowerChar (c : ascii) : ascii :=
  if isUpper c then ascii_of_N (N_of_ascii c + 32) else c.

Fixpoint toLowerCase (s : string) : string :=
  match s with
  | EmptyString => EmptyString
  | String c s' => String (lowerChar c) (toLowerCase s')
  end.

(** ** Keys *)

(** [['token-image', chainId, address.toLowerCase()]] *)
Definition QueryKey : Type := string * Z * string.

Definition queryKey (chainId : Z) (address : string) : QueryKey :=
  ("token-image", chainId, toLowerCase address).

(** [`${chainId}-${address.toLowerCase()}`]: for an integer chain id the
    template prints its decimal digits. *)
Definition cacheKey (chainId : Z) (address : string) : string :=
  pretty chainId +:+ "-" +:+ toLowerCase address.

(** ** Constants of the effect *)

Definition batchSize : nat := 15.
Definition delay : nat := 150.
(** The [100] of [setTimeout(preloadInBatches, 100)]. *)
Definition initialDeferral : nat := 100.
(** [5 * 60 * 1000] and [10 * 60 * 1000] *)
Definition staleTime : nat := 5 * 60 * 1000.
Definition gcTime : nat := 10 * 60 * 1000.

(** [Array.prototype.slice(start, end)] for non-negative integer bounds:
    an [end] past the array is clamped, a [start] past it gives [[]]. *)
Definition slice {A} (start end_ : nat) (l : list A) : list A :=
  take (end_ - start) (drop start l).

(** ** The browser *)

(** An [Image] whose [src] has been set fires [onload] or [onerror], some
    time later. *)
Inductive ImageSignal := onload | onerror.

#[global] Instance ImageSignal_eq_dec : EqDecision ImageSignal.
Proof. solve_decision. Defined.

Record Load := { signal : ImageSignal; latency : nat }.

(** ** Promises *)

Inductive PromiseState :=
| Fulfilled
| Rejected (reason : Error).

#[global] Instance PromiseState_eq_dec : EqDecision PromiseState.
Proof. solve_decision. Defined.

(** ** Observable events, in the order they happen *)

Inductive Event :=
| ConsoleLog (msg : string)
| ConsoleDebug (msg : string) (error : Error)
| Batch (items : list VaultData)
    (** [vaults.slice(i, i + batchSize)] handed to [Promise.allSettled] *)
| GetQueryData (key : QueryKey)
| PrefetchQuery (chainId : Z) (address : string) (imageUrl : string)
    (** a load attempt: [queryClient.prefetchQuery] called, image requested *)
| ImageEvent (chainId : Z) (address : string) (s : ImageSignal)
| Settled (chainId : Z) (address : string) (st : PromiseState)
    (** the promise of one [preloadImage] call, as [allSettled] sees it *)
| SetTimeout (ms : nat).
    (** an awaited [setTimeout(resolve, ms)] *)

#[global] Instance Event_eq_dec : EqDecision Event.
Proof. solve_decision. Defined.

(** ** The world *)

Record World := {
  vaults : list VaultData;
    (** the array object the effect closed over; owned by the caller *)
  preloadedSet : gset string;
    (** [preloadedSet.current] *)
  queryCache : gmap QueryKey QueryData;
    (** the data the shared query cache holds, by query key *)
  requested : nat;
    (** images requested so far; numbers the browser's answers *)
}.

(** ** The effect monad: state, a trace of events, thrown errors *)

Inductive Completion (A : Type) :=
| Normal (a : A)
| Throw (e : Error)
| OutOfFuel.
Arguments Normal {A} a.
Arguments Throw {A} e.
Arguments OutOfFuel {A}.

Record Result (A : Type) := {
  outcome : Completion A;
  final : World;
  trace : list Event;
}.
Arguments outcome {A} r.
Arguments final {A} r.
Arguments trace {A} r.

Definition M (A : Type) : Type := World → Result A.

#[global] Instance M_ret : MRet M := λ A a w,
  {| outcome := Normal a; final := w; trace := [] |}.

#[global] Instance M_bind : MBind M := λ A B f m w,
  let r := m w in
  match outcome r with
  | Normal a =>
      let r' := f a (final r) in
      {| outcome := outcome r'; final := final r'; trace := trace r ++ trace r' |}
  | Throw e => {| outcome := Throw e; final := final r; trace := trace r |}
  | OutOfFuel => {| outcome := OutOfFuel; final := final r; trace := trace r |}
  end.

Definition emit (e : Event) : M unit := λ w,
  {| outcome := Normal tt; final := w; trace := [e] |}.

Definition throw {A} (e : Error) : M A := λ w,
  {| outcome := Throw e; final := w; trace := [] |}.

Definition outOfFuel {A} : M A := λ w,
  {| outcome := OutOfFuel; final := w; trace := [] |}.

(** [try { body } catch (error) { handler }] *)
Definition tryCatch {A} (body : M A) (handler : Error → M A) : M A := λ w,
  let r := body w in
  match outcome r with
  | Throw e =>
      let r' := handler e (final r) in
      {| outcome := outcome r'; final := final r'; trace := trace r ++ trace r' |}
  | _ => r
  end.

(** Reads and writes of the objects in the world. *)
Definition vaults_length : M nat := λ w,
  {| outcome := Normal (length (vaults w)); final := w; trace := [] |}.

Definition vaults_slice (start end_ : nat) : M (list VaultData) := λ w,
  {| outcome := Normal (slice start end_ (vaults w)); final := w; trace := [] |}.

Definition preloadedSet_has (k : string) : M bool := λ w,
  {| outcome := Normal (bool_decide (k ∈ preloadedSet w)); final := w; trace := [] |}.

Definition preloadedSet_add (k : string) : M unit := λ w,
  {| outcome := Normal tt;
     final := {| vaults := vaults w;
                 preloadedSet := {[ k ]} ∪ preloadedSet w;
                 queryCache := queryCache w;
                 requested := requested w |};
     trace := [] |}.

Definition getQueryData (k : QueryKey) : M (option QueryData) := λ w,
  {| outcome := Normal (queryCache w !! k); final := w; trace := [GetQueryData k] |}.

Definition console_log (msg : string) : M unit := emit (ConsoleLog msg).
Definition console_debug (msg : string) (error : Error) : M unit :=
  emit (ConsoleDebug msg error).

(** ** The scheduler *)

(** One suspended [preloadImage] call: what its continuation needs, and the
    browser's answer it is waiting for. *)
Record Pending := {
  p_chainId : Z;
  p_address : string;
  p_imageUrl : string;
  p_queryKey : QueryKey;
  p_load : Load;
}.

(** A call of the [async] function [preloadImage] has, when it gives control
    back, either returned or stopped at its [await]. *)
Inductive Activation :=
| Returned (chainId : Z) (address : string)
| Suspended (p : Pending).

(** The [queryFn] handed to [prefetchQuery]: the promise resolves with the
    URL on [img.onload] and rejects on [img.onerror]. *)
Definition queryFn (imageUrl : string) (s : ImageSignal) : Error + string :=
  match s with
  | onload => inr imageUrl
  | onerror => inl {| message := "Failed to load image" |}
  end.

Definition setQueryData (k : QueryKey) (d : QueryData) : M unit := λ w,
  {| outcome := Normal tt;
     final := {| vaults := vaults w;
                 preloadedSet := preloadedSet w;
                 queryCache := <[ k := d ]> (queryCache w);
                 requested := requested w |};
     trace := [] |}.

(** When a promise of the batch settles: at once if the call had returned,
    after the image's latency otherwise. *)
Definition settlesAt (a : Activation) : nat :=
  match a with
  | Returned _ _ => 0
  | Suspended p => S (latency (p_load p))
  end.

Definition settlesBefore (a b : Activation) : Prop := settlesAt a ≤ settlesAt b.

#[global] Instance settlesBefore_dec a b : Decision (settlesBefore a b).
Proof. unfold settlesBefore. apply _. Defined.

Section Scheduler.

(** [getSvgAsset] of [@/utils/logos]: the image URL of a token.  Its body is
    not among these sources; the hook uses it as a pure function. *)
Variable getSvgAsset : Z → string → string.

(** What the browser answers to the [n]-th image request. *)
Variable browser : nat → Load.

(** Modelled from the spec: the shared request cache's
    [prefetch(key, loader, windows)], which "populates cache by invoking
    loader".  The call runs the loader, that is, requests the image; when
    the loader's promise settles, a resolved value becomes the data under
    the key and a rejection is what the awaiting [try] block catches. *)
Definition prefetchQuery (chainId : Z) (address : string)
    (key : QueryKey) (imageUrl : string) : M Pending := λ w,
  {| outcome := Normal {| p_chainId := chainId; p_address := address;
                          p_imageUrl := imageUrl; p_queryKey := key;
                          p_load := browser (requested w) |};
     final := {| vaults := vaults w;
                 preloadedSet := preloadedSet w;
                 queryCache := queryCache w;
                 requested := S (requested w) |};
     trace := [PrefetchQuery chainId address imageUrl] |}.

Definition prefetchQuery_settle (p : Pending) : M unit :=
  emit (ImageEvent (p_chainId p) (p_address p) (signal (p_load p)));;
  match queryFn (p_imageUrl p) (signal (p_load p)) with
  | inr data => setQueryData (p_queryKey p) (DString data)
  | inl error => throw error
  end.

(** [preloadImage], up to its [await] (lines 18-34). *)
Definition preloadImage (chainId : Z) (address : string) : M Activation :=
  let imageUrl := getSvgAsset chainId address in
  let queryKey := queryKey chainId address in
  let cacheKey := cacheKey chainId address in
  has ← preloadedSet_has cacheKey;
  if has : bool then mret (Returned chainId address) else
  cachedData ← getQueryData queryKey;
  if truthy cachedData then mret (Returned chainId address) else
  preloadedSet_add cacheKey;;
  p ← prefetchQuery chainId address queryKey imageUrl;
  mret (Suspended p).

(** [preloadImage], from its [await] on (lines 33-53). *)
Definition preloadImage_resume (p : Pending) : M unit :=
  tryCatch (prefetchQuery_settle p)
    (λ error,
       console_debug ("Failed to preload image for " +:+ p_address p +:+ ":") error).

(** The state of the promise an [async] body leaves behind. *)
Definition promiseOf (body : M unit) : M PromiseState := λ w,
  let r := body w in
  match outcome r with
  | Normal _ => {| outcome := Normal Fulfilled; final := final r; trace := trace r |}
  | Throw e => {| outcome := Normal (Rejected e); final := final r; trace := trace r |}
  | OutOfFuel => {| outcome := OutOfFuel; final := final r; trace := trace r |}
  end.

Definition settle (a : Activation) : M unit :=
  match a with
  | Returned chainId address => emit (Settled chainId address Fulfilled)
  | Suspended p =>
      st ← promiseOf (preloadImage_resume p);
      emit (Settled (p_chainId p) (p_address p) st)
  end.

Definition settleOrder (promises : list Activation) : list Activation :=
  merge_sort settlesBefore promises.

(** [await Promise.allSettled(promises)]: every promise is waited for, none
    of their rejections is rethrown; the array of results is dropped by the
    caller. *)
Definition allSettled (promises : list Activation) : M unit :=
  mapM settle (settleOrder promises);; mret tt.

(** One turn of the loop, up to the end of its first [await] (lines 66-71). *)
Definition preloadBatch (batch : list VaultData) : M unit :=
  emit (Batch batch);;
  promises ← mapM (λ vault, preloadImage (chainId vault) (address (asset vault))) batch;
  allSettled promises.

(** [for (let i = 0; i < vaults.length; i += batchSize)], from a given [i].
    The loop is bounded by [fuel] turns. *)
Fixpoint loop (fuel : nat) (i : nat) : M unit :=
  len ← vaults_length;
  if decide (i < len) then
    match fuel with
    | O => outOfFuel
    | S fuel' =>
        batch ← vaults_slice i (i + batchSize);
        preloadBatch batch;;
        len' ← vaults_length;
        (if decide (i + batchSize < len') then emit (SetTimeout delay) else mret tt);;
        loop fuel' (i + batchSize)
    end
  else mret tt.

(** [preloadInBatches] (lines 60-80).  A turn advances [i] by [batchSize],
    so [vaults.length] turns are more than the loop can take. *)
Definition preloadInBatches : M unit :=
  len ← vaults_length;
  console_log ("Starting to preload " +:+ pretty len +:+
               " token images in batches of " +:+ pretty batchSize);;
  loop len 0;;
  console_log "Finished preloading token images".

End Scheduler.

(** ** The hook and its life cycle *)

(** A timeout the event loop holds: its id, the milliseconds left, and the
    array the callback closed over. *)
Record Timer := {
  timeoutId : nat;
  remaining : nat;
  closure : list VaultData;
}.

Record Hook := {
  world : World;
  timers : list Timer;
    (** pending timeouts, in the order they were set *)
  nextTimeoutId : nat;
  cleanup : option nat;
    (** the cleanup the last effect returned, [clearTimeout(timeoutId)],
        kept as the id it closed over *)
  mounted : bool;
  log : list (nat * list Event);
    (** the runs so far: the id of the timeout that started each, and what
        the run showed *)
}.

(** What happens to a mounted component: it is rendered with a [vaults] array
    other than the last one (a render with the same dependencies runs nothing
    of this hook), it is unmounted, or time passes. *)
Inductive Lifecycle :=
| Render (vaults : list VaultData)
| Unmount
| Elapse (ms : nat).

Definition clearTimeout (id : nat) (h : Hook) : Hook :=
  {| world := world h;
     timers := filter (λ t, timeoutId t ≠ id) (timers h);
     nextTimeoutId := nextTimeoutId h;
     cleanup := cleanup h;
     mounted := mounted h;
     log := log h |}.

(** React runs the cleanup of the previous effect, if it returned one. *)
Definition runCleanup (h : Hook) : Hook :=
  match cleanup h with
  | Some id => clearTimeout id h
  | None => h
  end.

(** The effect (lines 14-88): nothing for an empty array; otherwise
    [setTimeout(preloadInBatches, 100)], and a cleanup that clears it.
    ([vaults] is typed as an array: the [!vaults] test has no case here.) *)
Definition effect (vaults : list VaultData) (h : Hook) : Hook :=
  if decide (length vaults = 0) then
    {| world := world h; timers := timers h; nextTimeoutId := nextTimeoutId h;
       cleanup := None; mounted := mounted h; log := log h |}
  else
    let timeoutId := nextTimeoutId h in
    {| world := world h;
       timers := timers h ++ [{| timeoutId := timeoutId;
                                 remaining := initialDeferral;
                                 closure := vaults |}];
       nextTimeoutId := S timeoutId;
       cleanup := Some timeoutId;
       mounted := mounted h;
       log := log h |}.

(** [usePreloadTokenImages(vaults)] on a render that changes [vaults]. *)
Definition usePreloadTokenImages (vaults : list VaultData) (h : Hook) : Hook :=
  if mounted h then effect vaults (runCleanup h) else h.

Definition unmount (h : Hook) : Hook :=
  let h' := runCleanup h in
  {| world := world h'; timers := timers h'; nextTimeoutId := nextTimeoutId h';
     cleanup := None; mounted := false; log := log h' |}.

(** The first render: [useRef(new Set())] makes the empty set; the query
    cache is the application's and comes with whatever it holds. *)
Definition mountWith (cache : gmap QueryKey QueryData) (requests : nat) : Hook :=
  {| world := {| vaults := []; preloadedSet := ∅; queryCache := cache;
                 requested := requests |};
     timers := []; nextTimeoutId := 0; cleanup := None; mounted := true;
     log := [] |}.

Definition firesBefore (t u : Timer) : Prop := remaining t ≤ remaining u.

#[global] Instance firesBefore_dec t u : Decision (firesBefore t u).
Proof. unfold firesBefore. apply _. Defined.

Section Lifecycle.

Variable getSvgAsset : Z → string → string.
Variable browser : nat → Load.

(** A timeout fires: [preloadInBatches] runs with the [vaults] of its
    closure.  The run is taken as one step: a render or an unmount that
    comes while it is in flight is not interleaved with it. *)
Definition fire (h : Hook) (t : Timer) : Hook :=
  let r := preloadInBatches getSvgAsset browser
             {| vaults := closure t;
                preloadedSet := preloadedSet (world h);
                queryCache := queryCache (world h);
                requested := requested (world h) |} in
  {| world := final r;
     timers := timers h;
     nextTimeoutId := nextTimeoutId h;
     cleanup := cleanup h;
     mounted := mounted h;
     log := log h ++ [(timeoutId t, trace r)] |}.

Definition tick (ms : nat) (t : Timer) : Timer :=
  {| timeoutId := timeoutId t; remaining := remaining t - ms; closure := closure t |}.

(** [ms] milliseconds pass: the timeouts that are due fire, the earliest
    first; the others come closer. *)
Definition elapse (ms : nat) (h : Hook) : Hook :=
  let due := merge_sort firesBefore (filter (λ t, remaining t ≤ ms) (timers h)) in
  let later := tick ms <$> filter (λ t, ms < remaining t) (timers h) in
  foldl fire
    {| world := world h; timers := later; nextTimeoutId := nextTimeoutId h;
       cleanup := cleanup h; mounted := mounted h; log := log h |}
    due.

Definition step (h : Hook) (ev : Lifecycle) : Hook :=
  match ev with
  | Render vaults => usePreloadTokenImages vaults h
  | Unmount => unmount h
  | Elapse ms => elapse ms h
  end.

Definition lifecycle (evs : list Lifecycle) (h : Hook) : Hook := foldl step h evs.

End Lifecycle.

(** * Reading a trace *)

(** The calls a list of vaults gives rise to, as [(chainId, address)]. *)
Definition item (vault : VaultData) : Z * string :=
  (chainId vault, address (asset vault)).

Definition itemOf (a : Activation) : Z * string :=
  match a with
  | Returned chainId address => (chainId, address)
  | Suspended p => (p_chainId p, p_address p)
  end.

Definition keyOf (it : Z * string) : string := cacheKey it.1 it.2.

(** The load attempts of a trace, in order. *)
Definition attempts (tr : list Event) : list (Z * string) :=
  omap (λ e, match e with PrefetchQuery c a _ => Some (c, a) | _ => None end) tr.

Definition attemptedKeys (tr : list Event) : list string :=
  keyOf <$> attempts tr.

(** The batches of a trace, in order. *)
Definition batchesOf (tr : list Event) : list (list VaultData) :=
  omap (λ e, match e with Batch items => Some items | _ => None end) tr.

(** The calls whose promise settled, and how. *)
Definition settlements (tr : list Event) : list (Z * string * PromiseState) :=
  omap (λ e, match e with Settled c a st => Some (c, a, st) | _ => None end) tr.

(** The rhythm of a run: a beat per batch, a beat per pacing delay. *)
Inductive Beat :=
| BatchBeat
| DelayBeat (ms : nat).

#[global] Instance Beat_eq_dec : EqDecision Beat.
Proof. solve_decision. Defined.

Definition beats (tr : list Event) : list Beat :=
  omap (λ e, match e with
             | Batch _ => Some BatchBeat
             | SetTimeout ms => Some (DelayBeat ms)
             | _ => None
             end) tr.

(** [n] batches with one delay between neighbours and none at the end. *)
Definition paced (ms : nat) (n : nat) : list Beat :=
  match n with
  | O => []
  | S n' => BatchBeat :: concat (replicate n' [DelayBeat ms; BatchBeat])
  end.

(** The call an event belongs to, for the events of single calls. *)
Definition callOf (e : Event) : option (Z * string) :=
  match e with
  | PrefetchQuery c a _ | ImageEvent c a _ | Settled c a _ => Some (c, a)
  | _ => None
  end.

(** A trace cut at its [Batch] events: what comes before the first one, and
    each batch with the events up to the next. *)
Fixpoint cut (tr : list Event) : list Event * list (list VaultData * list Event) :=
  match tr with
  | [] => ([], [])
  | e :: tr' =>
      let '(before, segs) := cut tr' in
      match e with
      | Batch items => ([], (items, before) :: segs)
      | _ => (e :: before, segs)
      end
  end.

Definition segments (tr : list Event) : list (list VaultData * list Event) :=
  (cut tr).2.

(** ** Letter case *)

(** Two bytes that are the same letter. *)
Definition sameLetter (c d : ascii) : Prop :=
  c = d ∨ (isUpper c = true ∧ d = lowerChar c) ∨ (isUpper d = true ∧ c = lowerChar d).

(** Two strings equal up to letter case. *)
Inductive sameUpToCase : string → string → Prop :=
| sameUpToCase_nil : sameUpToCase EmptyString EmptyString
| sameUpToCase_cons c d s t :
    sameLetter c d → sameUpToCase s t → sameUpToCase (String c s) (String d t).

(** Number of batches for [n] items: [ceil(n / batchSize)]. *)
Definition batchCount (n : nat) : nat := (n + (batchSize - 1)) / batchSize.

(** Events of the synchronous part of [preloadImage]. *)
Definition isSync (e : Event) : Prop :=
  match e with
  | GetQueryData _ | PrefetchQuery _ _ _ => True
  | _ => False
  end.

(** The calls of a batch that stopped at their [await]. *)
Definition pendingItems (acts : list Activation) : list (Z * string) :=
  omap (λ a, match a with
             | Suspended p => Some (p_chainId p, p_address p)
             | Returned _ _ => None
             end) acts.

(** A suspended call carries the key and the URL of its own arguments. *)
Definition wellFormed (getSvgAsset : Z → string → string) (a : Activation) : Prop :=
  match a with
  | Returned _ _ => True
  | Suspended p =>
      p_queryKey p = queryKey (p_chainId p) (p_address p) ∧
      p_imageUrl p = getSvgAsset (p_chainId p) (p_address p)
  end.

(** What settling one promise of a batch shows: the image's signal and, on
    [onerror], the diagnostic, for a suspended call; then the promise's
    state. *)
Definition settleTrace (a : Activation) : list Event :=
  match a with
  | Returned c addr => [Settled c addr Fulfilled]
  | Suspended p =>
      ImageEvent (p_chainId p) (p_address p) (signal (p_load p)) ::
      match signal (p_load p) with
      | onload => []
      | onerror =>
          [ConsoleDebug ("Failed to preload image for " +:+ p_address p +:+ ":")
                        {| message := "Failed to load image" |}]
      end ++ [Settled (p_chainId p) (p_address p) Fulfilled]
  end.

(** What settling one promise of a batch leaves in the cache. *)
Definition settleCache (cache : gmap QueryKey QueryData) (a : Activation)
    : gmap QueryKey QueryData :=
  match a with
  | Returned _ _ => cache
  | Suspended p =>
      match signal (p_load p) with
      | onload => <[ p_queryKey p := DString (p_imageUrl p) ]> cache
      | onerror => cache
      end
  end.

(** What a stretch of the scheduler's work with load attempts [its] may do
    to the world: it leaves the caller's array alone; it attempts no key that
    was marked, and no key twice; it marks exactly the keys it attempts; and a
    key of the cache holds what it held, or the URL of one of the attempts. *)
Definition Sound (getSvgAsset : Z → string → string)
    (w : World) (its : list (Z * string)) (w' : World) : Prop :=
  vaults w' = vaults w ∧
  NoDup (keyOf <$> its) ∧
  (∀ k, k ∈ keyOf <$> its → k ∉ preloadedSet w) ∧
  preloadedSet w' = list_to_set (keyOf <$> its) ∪ preloadedSet w ∧
  (∀ k, queryCache w' !! k = queryCache w !! k ∨
        ∃ it, it ∈ its ∧ queryKey it.1 it.2 = k ∧
              queryCache w' !! k = Some (DString (getSvgAsset it.1 it.2))).

(** The events from a batch to the next are those of its own calls: they
    belong to vaults of the batch, settle every one of them, and give every
    image requested its signal. *)
Definition ownSegment (seg : list VaultData * list Event) : Prop :=
  (∀ e it, e ∈ seg.2 → callOf e = Some it → it ∈ item <$> seg.1) ∧
  settlements seg.2 ≡ₚ (λ v, (item v, Fulfilled)) <$> seg.1 ∧
  (∀ it, it ∈ attempts seg.2 → ∃ s, ImageEvent it.1 it.2 s ∈ seg.2).

(** The slices the loop takes from index [i] on. *)
Definition chunksFrom (i : nat) (vs : list VaultData) : list (list VaultData) :=
  (λ j, slice (i + batchSize * j) (i + batchSize * j + batchSize) vs)
    <$> seq 0 (batchCount (length vs - i)).

(** Everything the runs of a hook have shown, in order. *)
Definition history (h : Hook) : list Event := concat (log h).*2.

(** The pacing delays of a trace, in order. *)
Definition delays (tr : list Event) : list nat :=
  omap (λ e, match e with SetTimeout ms => Some ms | _ => None end) tr.

(** ** Invariants of the life cycle *)

(** The timeouts pending are the one the last effect set, if any; ids are
    handed out in increasing order, to timeouts and so to runs. *)
Definition timersOwned (h : Hook) : Prop :=
  (∀ t, t ∈ timers h → cleanup h = Some (timeoutId t)) ∧
  (∀ t, t ∈ timers h → timeoutId t < nextTimeoutId h) ∧
  (∀ id, id ∈ (log h).*1 → id < nextTimeoutId h).

(** The timeout [id] has been set, is not pending, and has not fired. *)
Definition cancelled (id : nat) (h : Hook) : Prop :=
  (∀ t, t ∈ timers h → timeoutId t ≠ id) ∧
  id < nextTimeoutId h ∧
  id ∉ (log h).*1.

(** No key was attempted twice in the runs so far, and the keys attempted
    are marked in the set. *)
Definition attemptedOnce (h : Hook) : Prop :=
  NoDup (attemptedKeys (history h)) ∧
  (∀ k, k ∈ attemptedKeys (history h) → k ∈ preloadedSet (world h)).

(** * Concrete inputs *)

Module Sample.

(** A stand-in for [getSvgAsset]. *)
Definition getSvgAsset (chainId : Z) (address : string) : string :=
  "https://assets.example/" +:+ pretty chainId +:+ "/" +:+ address +:+ "/logo.svg".

(** A browser that loads every image, and one that fails every image. *)
Definition allLoad (n : nat) : Load := {| signal := onload; latency := n |}.
Definition allFail (n : nat) : Load := {| signal := onerror; latency := n |}.

Definition vault (a : string) : VaultData :=
  {| chainId := 1; asset := {| address := a |} |}.

(** The [n]-th of a row of vaults with different addresses. *)
Definition vaultNo (n : nat) : VaultData := vault ("0x" +:+ pretty n).

(** A world with the given array and cache, and nothing attempted. *)
Definition worldWith (vs : list VaultData) (cache : gmap QueryKey QueryData) : World :=
  {| vaults := vs; preloadedSet := ∅; queryCache := cache; requested := 0 |}.

(** A cache that holds the empty string, and one that holds a URL, for
    one token. *)
Definition emptyStringCached : gmap QueryKey QueryData :=
  {[ queryKey 1 "0xab" := DString "" ]}.
Definition urlCached : gmap QueryKey QueryData :=
  {[ queryKey 1 "0xab" := DString "https://assets.example/1/0xab/logo.svg" ]}.

End Sample.

(** * More readings of a trace *)

(** The image requests of a trace, in order: the call and the URL asked for. *)
Definition requests (tr : list Event) : list (Z * string * string) :=
  omap (λ e, match e with PrefetchQuery c a u => Some (c, a, u) | _ => None end) tr.

(** The request a vault gives rise to, if it is attempted. *)
Definition requestOf (getSvgAsset : Z → string → string) (vault : VaultData)
    : Z * string * string :=
  (chainId vault, address (asset vault),
   getSvgAsset (chainId vault) (address (asset vault))).

(** The query keys the suspended calls of a batch will write to. *)
Definition pendingKeys (acts : list Activation) : list QueryKey :=
  omap (λ a, match a with
             | Suspended p => Some (p_queryKey p)
             | Returned _ _ => None
             end) acts.

(** What the cache holds for a call whose image gave signal [s]: the URL if
    it loaded, what was there before if it failed. *)
Definition cachedAfter (getSvgAsset : Z → string → string)
    (before : gmap QueryKey QueryData) (c : Z) (a : string) (s : ImageSignal)
    : option QueryData :=
  match s with
  | onload => Some (DString (getSvgAsset c a))
  | onerror => before !! queryKey c a
  end.

(** A vault reference that needs no load in a world: its key is marked, or
    the cache holds a truthy value for it. *)
Definition settledIn (w : World) (it : Z * string) : Prop :=
  keyOf it ∈ preloadedSet w ∨ truthy (queryCache w !! queryKey it.1 it.2) = true.

(** ** Decimal digits *)

Definition isDigit (c : ascii) : Prop :=
  (48 ≤ N_of_ascii c)%N ∧ (N_of_ascii c ≤ 57)%N.

Fixpoint allDigits (s : string) : Prop :=
  match s with
  | EmptyString => True
  | String c s' => isDigit c ∧ allDigits s'
  end.

(** ** More invariants of the life cycle *)



(** The events from a batch to the next start with the batch's requests,
    all of them before any image gives its signal: a stretch of cache reads
    and requests, which asks only for vaults of the batch, in order, and then
    a stretch without requests. *)
Definition issuedTogether (getSvgAsset : Z → string → string)
    (seg : list VaultData * list Event) : Prop :=
  ∃ issued settled,
    seg.2 = issued ++ settled ∧
    Forall isSync issued ∧
    requests issued `sublist_of` requestOf getSvgAsset <$> seg.1 ∧
    requests settled = [].

(** * Reasoning about the monad *)

Section MonadFacts.
Context {A B : Type} (m : M A) (f : A → M B) (w : World).

Lemma bind_outcome a :
  outcome (m w) = Normal a →
  outcome ((m ≫= f) w) = outcome (f a (final (m w))).
Proof. intros H. unfold mbind, M_bind. cbn. rewrite H. reflexivity. Qed.

Lemma bind_final a :
  outcome (m w) = Normal a →
  final ((m ≫= f) w) = final (f a (final (m w))).
Proof. intros H. unfold mbind, M_bind. cbn. rewrite H. reflexivity. Qed.

Lemma bind_trace a :
  outcome (m w) = Normal a →
  trace ((m ≫= f) w) = trace (m w) ++ trace (f a (final (m w))).
Proof. intros H. unfold mbind, M_bind. cbn. rewrite H. reflexivity. Qed.
End MonadFacts.

Section SchedulerFacts.
Variable getSvgAsset : Z → string → string.
Variable browser : nat → Load.

(** The three ways through the synchronous part of [preloadImage]. *)
Lemma preloadImage_run c a w :
  preloadImage getSvgAsset browser c a w =
    if bool_decide (cacheKey c a ∈ preloadedSet w) then
      {| outcome := Normal (Returned c a); final := w; trace := [] |}
    else if truthy (queryCache w !! queryKey c a) then
      {| outcome := Normal (Returned c a); final := w;
         trace := [GetQueryData (queryKey c a)] |}
    else
      {| outcome := Normal (Suspended
                      {| p_chainId := c; p_address := a;
                         p_imageUrl := getSvgAsset c a;
                         p_queryKey := queryKey c a;
                         p_load := browser (requested w) |});
         final := {| vaults := vaults w;
                     preloadedSet := {[ cacheKey c a ]} ∪ preloadedSet w;
                     queryCache := queryCache w;
                     requested := S (requested w) |};
         trace := [GetQueryData (queryKey c a);
                   PrefetchQuery c a (getSvgAsset c a)] |}.
Proof.
  unfold preloadImage, mbind, M_bind, preloadedSet_has. cbn.
  destruct (bool_decide _); [reflexivity|]. cbn.
  destruct (truthy _); reflexivity.
Qed.
End SchedulerFacts.

(** * Reading traces: basic facts *)

Lemma attempts_app t1 t2 : attempts (t1 ++ t2) = attempts t1 ++ attempts t2.
Proof. apply omap_app. Qed.

Lemma attemptedKeys_app t1 t2 :
  attemptedKeys (t1 ++ t2) = attemptedKeys t1 ++ attemptedKeys t2.
Proof. unfold attemptedKeys. rewrite attempts_app. apply fmap_app. Qed.

Lemma batchesOf_app t1 t2 : batchesOf (t1 ++ t2) = batchesOf t1 ++ batchesOf t2.
Proof. apply omap_app. Qed.

Lemma beats_app t1 t2 : beats (t1 ++ t2) = beats t1 ++ beats t2.
Proof. apply omap_app. Qed.

Lemma settlements_app t1 t2 :
  settlements (t1 ++ t2) = settlements t1 ++ settlements t2.
Proof. apply omap_app. Qed.

(** [mapM] in this monad, one element at a time. *)
Lemma mapM_cons_run {A B} (f : A → M B) x l w y ys :
  outcome (f x w) = Normal y →
  outcome (mapM f l (final (f x w))) = Normal ys →
  outcome (mapM f (x :: l) w) = Normal (y :: ys) ∧
  final (mapM f (x :: l) w) = final (mapM f l (final (f x w))) ∧
  trace (mapM f (x :: l) w) = trace (f x w) ++ trace (mapM f l (final (f x w))).
Proof.
  intros H1 H2. cbn [mapM].
  set (k := λ y, mapM f l ≫= λ k, mret (y :: k)).
  assert (Hk : outcome (k y (final (f x w))) = Normal (y :: ys)
               ∧ final (k y (final (f x w))) = final (mapM f l (final (f x w)))
               ∧ trace (k y (final (f x w))) = trace (mapM f l (final (f x w)))).
  { unfold k. rewrite (bind_outcome _ _ _ ys H2), (bind_final _ _ _ ys H2),
      (bind_trace _ _ _ ys H2). cbn. by rewrite app_nil_r. }
  destruct Hk as (Ko & Kf & Kt).
  rewrite (bind_outcome _ k _ y H1), (bind_final _ k _ y H1), (bind_trace _ k _ y H1).
  by rewrite Ko, Kf, Kt.
Qed.

(** * The synchronous part of a batch *)

Section SyncFacts.
Variable getSvgAsset : Z → string → string.
Variable browser : nat → Load.

Local Abbreviation call :=
  (λ vault, preloadImage getSvgAsset browser (chainId vault) (address (asset vault))).

(** A call that returns without a load attempt leaves the world as it is;
    a call that suspends has marked its key and requested its image. *)
Lemma preloadImage_cases c a w :
  let r := preloadImage getSvgAsset browser c a w in
  (outcome r = Normal (Returned c a) ∧ final r = w ∧ attempts (trace r) = [] ∧
   Forall isSync (trace r) ∧
   ((cacheKey c a ∈ preloadedSet w) ∨ (truthy (queryCache w !! queryKey c a) = true)))
  ∨
  (∃ p, outcome r = Normal (Suspended p) ∧
        p_chainId p = c ∧ p_address p = a ∧
        p_imageUrl p = getSvgAsset c a ∧ p_queryKey p = queryKey c a ∧
        p_load p = browser (requested w) ∧
        trace r = [GetQueryData (queryKey c a); PrefetchQuery c a (getSvgAsset c a)] ∧
        vaults (final r) = vaults w ∧
        queryCache (final r) = queryCache w ∧
        requested (final r) = S (requested w) ∧
        preloadedSet (final r) = {[ cacheKey c a ]} ∪ preloadedSet w ∧
        (cacheKey c a ∉ preloadedSet w) ∧
        truthy (queryCache w !! queryKey c a) = false).
Proof.
  cbn zeta. rewrite preloadImage_run.
  case_bool_decide as Hin; [|destruct (truthy _) eqn:Htr].
  - left. cbn. repeat split; auto.
  - left. cbn. repeat split; auto. by constructor.
  - right. eexists. cbn. repeat split; auto.
Qed.

Lemma mapM_preloadImage batch : ∀ w,
  let r := mapM call batch w in
  ∃ acts,
    outcome r = Normal acts ∧
    itemOf <$> acts = item <$> batch ∧
    Forall (wellFormed getSvgAsset) acts ∧
    attempts (trace r) = pendingItems acts ∧
    Forall isSync (trace r) ∧
    vaults (final r) = vaults w ∧
    queryCache (final r) = queryCache w ∧
    requested w ≤ requested (final r) ∧
    preloadedSet (final r) = list_to_set (attemptedKeys (trace r)) ∪ preloadedSet w ∧
    NoDup (attemptedKeys (trace r)) ∧
    (∀ k, k ∈ attemptedKeys (trace r) → k ∉ preloadedSet w).
Proof.
  induction batch as [|v batch IH]; intros w.
  - exists []. cbn. repeat split; try done.
    + set_solver.
    + constructor.
    + set_solver.
  - cbn zeta.
    destruct (preloadImage_cases (chainId v) (address (asset v)) w)
      as [(Ho1 & Hf1 & Ha1 & Hs1 & _)
         |(p & Ho1 & Hc & Had & Hu & Hq & _ & Ht1 & Hv1 & Hq1 & Hr1 & Hset1 & Hnin & _)];
      cbn zeta in *.
    + destruct (IH w) as (acts & Ho & Hit & Hwf & Hat & Hsy & Hv & Hqc & Hrq & Hset & Hnd & Hfr).
      cbn zeta in *.
      destruct (mapM_cons_run call v batch w _ acts Ho1) as (Eo & Ef & Et).
      { cbn beta. by rewrite Hf1. }
      cbn beta in *. rewrite Hf1 in *. rewrite Eo, Ef, Et.
      exists (Returned (chainId v) (address (asset v)) :: acts).
      rewrite attempts_app, attemptedKeys_app, Ha1.
      unfold attemptedKeys at 1 3 5. rewrite Ha1. cbn [fmap list_fmap app].
      repeat split; try done.
      * cbn. by rewrite Hit.
      * by constructor.
      * by apply Forall_app.
    + destruct (IH (final (preloadImage getSvgAsset browser (chainId v) (address (asset v)) w)))
        as (acts & Ho & Hit & Hwf & Hat & Hsy & Hv & Hqc & Hrq & Hset & Hnd & Hfr).
      cbn zeta in *.
      destruct (mapM_cons_run call v batch w _ acts Ho1) as (Eo & Ef & Et).
      { done. }
      cbn beta in *. rewrite Eo, Ef, Et.
      exists (Suspended p :: acts).
      rewrite attempts_app, attemptedKeys_app, Ht1.
      cbn [attempts attemptedKeys omap list_omap fmap list_fmap app keyOf fst snd].
      fold (attempts (trace (mapM call batch (final (preloadImage getSvgAsset browser (chainId v) (address (asset v)) w))))).
      repeat split.
      * cbn. by rewrite Hit, Hc, Had.
      * constructor; [|done]. cbn. by rewrite Hu, Hq, Hc, Had.
      * cbn. by rewrite Hat, Hc, Had.
      * do 2 (constructor; [done|]). done.
      * congruence.
      * congruence.
      * lia.
      * rewrite Hset, Hset1. unfold attemptedKeys. set_solver.
      * constructor; [|done]. intros Hk. apply Hfr in Hk. set_solver.
      * intros k Hk. apply elem_of_cons in Hk as [->|Hk]; [done|].
        apply Hfr in Hk. set_solver.
Qed.
End SyncFacts.

(** * Settling a batch *)

Section SettleFacts.

Lemma settle_run a w :
  let r := settle a w in
  outcome r = Normal tt ∧
  trace r = settleTrace a ∧
  vaults (final r) = vaults w ∧
  preloadedSet (final r) = preloadedSet w ∧
  requested (final r) = requested w ∧
  queryCache (final r) = settleCache (queryCache w) a.
Proof.
  destruct a as [c a|[c a u k [s l]]]; cbn zeta.
  - cbn. done.
  - destruct s; cbn; done.
Qed.

Lemma mapM_settle l : ∀ w,
  let r := mapM settle l w in
  (∃ us, outcome r = Normal us) ∧
  trace r = concat (settleTrace <$> l) ∧
  vaults (final r) = vaults w ∧
  preloadedSet (final r) = preloadedSet w ∧
  requested (final r) = requested w ∧
  queryCache (final r) = foldl settleCache (queryCache w) l.
Proof.
  induction l as [|a l IH]; intros w; cbn zeta.
  - cbn. eauto 10.
  - destruct (settle_run a w) as (Ho & Ht & Hv & Hp & Hr & Hq). cbn zeta in *.
    destruct (IH (final (settle a w))) as ((us & Ho') & Ht' & Hv' & Hp' & Hr' & Hq').
    cbn zeta in *.
    destruct (mapM_cons_run settle a l w _ us Ho Ho') as (Eo & Ef & Et).
    rewrite Eo, Ef, Et, Ht, Ht', Hv', Hp', Hr', Hq', Hv, Hp, Hr, Hq.
    cbn. eauto 10.
Qed.

Lemma allSettled_run acts w :
  let r := allSettled acts w in
  outcome r = Normal tt ∧
  trace r = concat (settleTrace <$> settleOrder acts) ∧
  vaults (final r) = vaults w ∧
  preloadedSet (final r) = preloadedSet w ∧
  requested (final r) = requested w ∧
  queryCache (final r) = foldl settleCache (queryCache w) (settleOrder acts).
Proof.
  cbn zeta. unfold allSettled.
  destruct (mapM_settle (settleOrder acts) w) as ((us & Ho) & Ht & Hv & Hp & Hr & Hq).
  cbn zeta in *.
  rewrite (bind_outcome _ _ _ us Ho), (bind_final _ _ _ us Ho), (bind_trace _ _ _ us Ho).
  cbn. rewrite app_nil_r. done.
Qed.

Lemma settleOrder_perm acts : settleOrder acts ≡ₚ acts.
Proof. apply merge_sort_Permutation. Qed.
End SettleFacts.

(** ** What the settling of a batch shows *)

Lemma elem_of_concat {A} (x : A) (ls : list (list A)) :
  x ∈ concat ls ↔ ∃ l, x ∈ l ∧ l ∈ ls.
Proof.
  induction ls as [|l ls IH]; cbn.
  - split; [by intros ?%elem_of_nil|]. intros (l & _ & ?%elem_of_nil). done.
  - rewrite elem_of_app, IH. split.
    + intros [H|(l' & H1 & H2)]; [exists l|exists l']; set_solver.
    + intros (l' & H1 & [->|H2]%elem_of_cons); [by left|]. right. eauto.
Qed.

Section SettledTraces.
Implicit Types (l : list Activation) (a : Activation).

Lemma settled_attempts l : attempts (concat (settleTrace <$> l)) = [].
Proof.
  induction l as [|a l IH]; [done|].
  cbn [fmap list_fmap concat]. rewrite attempts_app, IH, app_nil_r.
  destruct a as [c d|p]; [done|]. cbn. by destruct (signal (p_load p)).
Qed.

Lemma settled_beats l : beats (concat (settleTrace <$> l)) = [].
Proof.
  induction l as [|a l IH]; [done|].
  cbn [fmap list_fmap concat]. rewrite beats_app, IH, app_nil_r.
  destruct a as [c d|p]; [done|]. cbn. by destruct (signal (p_load p)).
Qed.

Lemma settled_batchesOf l : batchesOf (concat (settleTrace <$> l)) = [].
Proof.
  induction l as [|a l IH]; [done|].
  cbn [fmap list_fmap concat]. rewrite batchesOf_app, IH, app_nil_r.
  destruct a as [c d|p]; [done|]. cbn. by destruct (signal (p_load p)).
Qed.

Lemma settled_settlements l :
  settlements (concat (settleTrace <$> l)) = (λ a, (itemOf a, Fulfilled)) <$> l.
Proof.
  induction l as [|a l IH]; [done|].
  cbn [fmap list_fmap concat]. rewrite settlements_app, IH. f_equal.
  destruct a as [c d|p]; [done|]. cbn. by destruct (signal (p_load p)).
Qed.

Lemma settleTrace_calls a e it :
  e ∈ settleTrace a → callOf e = Some it → it = itemOf a.
Proof.
  destruct a as [c d|p]; cbn.
  - intros ->%list_elem_of_singleton. cbn. congruence.
  - destruct (signal (p_load p)); cbn; intros He;
      repeat (apply elem_of_cons in He as [->|He]; [cbn; congruence|]);
      by apply elem_of_nil in He.
Qed.

Lemma settled_calls l e it :
  e ∈ concat (settleTrace <$> l) → callOf e = Some it → it ∈ itemOf <$> l.
Proof.
  intros He Hc. apply elem_of_concat in He as (tr & He & Htr).
  apply list_elem_of_fmap in Htr as (a & -> & Ha).
  rewrite (settleTrace_calls a e it He Hc). by apply list_elem_of_fmap_2.
Qed.

(** Whatever image fails, its failure is logged. *)
Lemma settled_errors l c d :
  ImageEvent c d onerror ∈ concat (settleTrace <$> l) →
  ConsoleDebug ("Failed to preload image for " +:+ d +:+ ":")
               {| message := "Failed to load image" |}
    ∈ concat (settleTrace <$> l).
Proof.
  intros He. apply elem_of_concat in He as (tr & He & Htr).
  apply elem_of_concat. exists tr. split; [|done].
  apply list_elem_of_fmap in Htr as (a & -> & Ha).
  destruct a as [c' d'|p]; cbn in *.
  - by apply list_elem_of_singleton in He.
  - destruct (signal (p_load p)) eqn:Hs; cbn in *.
    + repeat (apply elem_of_cons in He as [He|He]; [congruence|]).
      by apply elem_of_nil in He.
    + apply elem_of_cons in He as [He|He].
      * injection He as -> -> . set_solver.
      * repeat (apply elem_of_cons in He as [He|He]; [congruence|]).
        by apply elem_of_nil in He.
Qed.

(** Every suspended call gets its image's signal. *)
Lemma settled_images l p :
  Suspended p ∈ l →
  ImageEvent (p_chainId p) (p_address p) (signal (p_load p))
    ∈ concat (settleTrace <$> l).
Proof.
  intros Hp. apply elem_of_concat. exists (settleTrace (Suspended p)). split.
  - cbn. set_solver.
  - by apply list_elem_of_fmap_2.
Qed.

(** A key of the cache after the settling holds what it held, or the URL
    of a call of the batch whose image loaded. *)
Lemma settled_cache l : ∀ (m : gmap QueryKey QueryData) k,
  foldl settleCache m l !! k = m !! k ∨
  ∃ p, Suspended p ∈ l ∧ p_queryKey p = k ∧ signal (p_load p) = onload ∧
       foldl settleCache m l !! k = Some (DString (p_imageUrl p)).
Proof.
  induction l as [|a l IH]; intros m k; [by left|].
  cbn [foldl]. destruct (IH (settleCache m a) k) as [Heq|(p & Hp & Hk & Hs & Hv)].
  - rewrite Heq. destruct a as [c d|p]; [by left|]. cbn.
    destruct (signal (p_load p)) eqn:Hs; [|by left].
    destruct (decide (p_queryKey p = k)) as [Hk|Hk].
    + right. exists p. subst k. rewrite lookup_insert_eq.
      split; [set_solver|done].
    + left. by rewrite lookup_insert_ne.
  - right. exists p. split; [set_solver|done].
Qed.
End SettledTraces.

(** * A batch *)

Section BatchFacts.
Variable getSvgAsset : Z → string → string.
Variable browser : nat → Load.

Local Abbreviation call :=
  (λ vault, preloadImage getSvgAsset browser (chainId vault) (address (asset vault))).

Lemma preloadBatch_run batch w :
  let r := preloadBatch getSvgAsset browser batch w in
  ∃ acts,
    outcome (mapM call batch w) = Normal acts ∧
    outcome r = Normal tt ∧
    trace r = Batch batch :: trace (mapM call batch w)
                ++ concat (settleTrace <$> settleOrder acts) ∧
    vaults (final r) = vaults w ∧
    requested w ≤ requested (final r) ∧
    preloadedSet (final r) = preloadedSet (final (mapM call batch w)) ∧
    queryCache (final r) = foldl settleCache (queryCache w) (settleOrder acts).
Proof.
  cbn zeta. unfold preloadBatch.
  destruct (mapM_preloadImage getSvgAsset browser batch w)
    as (acts & Ho & _ & _ & _ & _ & Hv & Hq & Hr & _). cbn zeta in *.
  exists acts. split; [done|].
  destruct (allSettled_run acts (final (mapM call batch w)))
    as (Ho' & Ht' & Hv' & Hp' & Hr' & Hq'). cbn zeta in *.
  set (k := λ promises, allSettled promises).
  set (body := mapM call batch ≫= k).
  assert (Hb : outcome (body w) = Normal tt
               ∧ final (body w) = final (allSettled acts (final (mapM call batch w)))
               ∧ trace (body w) = trace (mapM call batch w)
                   ++ concat (settleTrace <$> settleOrder acts)).
  { unfold body. rewrite (bind_outcome _ k _ acts Ho), (bind_final _ k _ acts Ho),
      (bind_trace _ k _ acts Ho). unfold k. by rewrite Ho', Ht'. }
  destruct Hb as (Bo & Bf & Bt).
  assert (He : outcome (emit (Batch batch) w) = Normal tt) by done.
  rewrite (bind_outcome _ (λ _, body) _ tt He), (bind_final _ (λ _, body) _ tt He),
    (bind_trace _ (λ _, body) _ tt He).
  cbn [emit final trace]. rewrite Bo, Bf, Bt, Hv', Hp', Hr', Hq', Hv, Hq.
  repeat split; try done.
Qed.
End BatchFacts.

(** * Sound stretches compose *)

Section SoundFacts.
Variable getSvgAsset : Z → string → string.

Lemma Sound_refl w : Sound getSvgAsset w [] w.
Proof.
  repeat split; try done.
  - constructor.
  - set_solver.
  - set_solver.
  - by left.
Qed.

Lemma Sound_trans w1 its1 w2 its2 w3 :
  Sound getSvgAsset w1 its1 w2 → Sound getSvgAsset w2 its2 w3 →
  Sound getSvgAsset w1 (its1 ++ its2) w3.
Proof.
  intros (Hv1 & Hnd1 & Hfr1 & Hset1 & Hc1) (Hv2 & Hnd2 & Hfr2 & Hset2 & Hc2).
  rewrite Hset1 in Hfr2. unfold Sound. rewrite fmap_app.
  split; [congruence|]. split; [|split; [|split]].
  - apply NoDup_app. split; [done|]. split; [|done].
    intros k Hk1 Hk2. apply Hfr2 in Hk2. set_solver.
  - intros k [Hk|Hk]%elem_of_app; [by apply Hfr1|].
    apply Hfr2 in Hk. set_solver.
  - rewrite Hset2, Hset1. set_solver.
  - intros k. destruct (Hc2 k) as [Heq|(it & Hin & Hk & Hval)].
    + rewrite Heq. destruct (Hc1 k) as [Heq1|(it & Hin & Hk & Hval)]; [by left|].
      right. exists it. split; [set_solver|done].
    + right. exists it. split; [set_solver|done].
Qed.
End SoundFacts.

(** * The loop *)

Section LoopFacts.
Variable getSvgAsset : Z → string → string.
Variable browser : nat → Load.

Local Abbreviation call :=
  (λ vault, preloadImage getSvgAsset browser (chainId vault) (address (asset vault))).
Local Abbreviation preloadBatch' := (preloadBatch getSvgAsset browser).
Local Abbreviation loop' := (loop getSvgAsset browser).

Lemma preloadBatch_Sound batch w :
  let r := preloadBatch' batch w in
  Sound getSvgAsset w (attempts (trace r)) (final r).
Proof.
  cbn zeta.
  destruct (preloadBatch_run getSvgAsset browser batch w)
    as (acts & Ho & _ & Ht & Hv & _ & Hp & Hq). cbn zeta in *.
  destruct (mapM_preloadImage getSvgAsset browser batch w)
    as (acts' & Ho' & Hit & Hwf & Hat & Hsy & _ & _ & _ & Hset & Hnd & Hfr).
  cbn zeta in *. assert (acts' = acts) as -> by congruence.
  rewrite Ht. cbn [attempts omap list_omap].
  fold (attempts (trace (mapM call batch w) ++ concat (settleTrace <$> settleOrder acts))).
  rewrite attempts_app, settled_attempts, app_nil_r.
  unfold attemptedKeys in *.
  repeat split; try done.
  - by rewrite Hp.
  - intros k. rewrite Hq.
    destruct (settled_cache (settleOrder acts) (queryCache w) k)
      as [Heq|(p & Hin & Hk & _ & Hval)]; [by left|].
    right. exists (p_chainId p, p_address p).
    rewrite settleOrder_perm in Hin.
    rewrite Forall_forall in Hwf. destruct (Hwf _ Hin) as [Hwk Hwu].
    cbn [fst snd]. rewrite <- Hwk, <- Hwu. repeat split; try done.
    rewrite Hat. unfold pendingItems. apply list_elem_of_omap.
    by exists (Suspended p).
Qed.

Lemma vaults_length_run w :
  outcome (vaults_length w) = Normal (length (vaults w)).
Proof. done. Qed.

Lemma loop_done fuel i w :
  ¬ i < length (vaults w) →
  outcome (loop' fuel i w) = Normal tt ∧ final (loop' fuel i w) = w ∧
  trace (loop' fuel i w) = [].
Proof.
  intros Hi. pose proof (vaults_length_run w) as Hl.
  destruct fuel; cbn [loop];
    rewrite (bind_outcome _ _ _ _ Hl), (bind_final _ _ _ _ Hl), (bind_trace _ _ _ _ Hl);
    cbn beta; by rewrite decide_False.
Qed.

Lemma loop_out i w :
  i < length (vaults w) →
  outcome (loop' 0 i w) = OutOfFuel ∧ final (loop' 0 i w) = w ∧
  trace (loop' 0 i w) = [].
Proof.
  intros Hi. pose proof (vaults_length_run w) as Hl.
  cbn [loop].
  rewrite (bind_outcome _ _ _ _ Hl), (bind_final _ _ _ _ Hl), (bind_trace _ _ _ _ Hl).
  cbn beta. by rewrite decide_True.
Qed.

(** One turn of the loop. *)
Lemma loop_step fuel i w :
  i < length (vaults w) →
  let r1 := preloadBatch' (slice i (i + batchSize) (vaults w)) w in
  let pause := if decide (i + batchSize < length (vaults w))
               then [SetTimeout delay] else [] in
  let r2 := loop' fuel (i + batchSize) (final r1) in
  outcome (loop' (S fuel) i w) = outcome r2 ∧
  final (loop' (S fuel) i w) = final r2 ∧
  trace (loop' (S fuel) i w) = trace r1 ++ pause ++ trace r2.
Proof.
  intros Hi. cbn zeta.
  destruct (preloadBatch_run getSvgAsset browser (slice i (i + batchSize) (vaults w)) w)
    as (acts & _ & Ho & _ & Hv & _). cbn zeta in *.
  set (r1 := preloadBatch' (slice i (i + batchSize) (vaults w)) w) in *.
  pose proof (vaults_length_run w) as Hl.
  pose proof (vaults_length_run (final r1)) as Hl1. rewrite Hv in Hl1.
  assert (Hs : outcome (vaults_slice i (i + batchSize) w)
               = Normal (slice i (i + batchSize) (vaults w))) by done.
  cbn [loop].
  rewrite (bind_outcome _ _ _ _ Hl), (bind_final _ _ _ _ Hl), (bind_trace _ _ _ _ Hl).
  cbn beta. rewrite decide_True by done.
  rewrite (bind_outcome _ _ _ _ Hs), (bind_final _ _ _ _ Hs), (bind_trace _ _ _ _ Hs).
  cbn [vaults_length vaults_slice final trace app]. fold r1.
  rewrite (bind_outcome _ _ _ _ Ho), (bind_final _ _ _ _ Ho), (bind_trace _ _ _ _ Ho).
  rewrite (bind_outcome _ _ _ _ Hl1), (bind_final _ _ _ _ Hl1), (bind_trace _ _ _ _ Hl1).
  cbn [vaults_length final trace app].
  case_decide.
  - assert (He : outcome (emit (SetTimeout delay) (final r1)) = Normal tt) by done.
    by rewrite (bind_outcome _ _ _ _ He), (bind_final _ _ _ _ He), (bind_trace _ _ _ _ He).
  - assert (He : outcome ((mret tt : M unit) (final r1)) = Normal tt) by done.
    by rewrite (bind_outcome _ _ _ _ He), (bind_final _ _ _ _ He), (bind_trace _ _ _ _ He).
Qed.
End LoopFacts.

(** * What a batch shows *)

Lemma sync_batchesOf tr : Forall isSync tr → batchesOf tr = [].
Proof.
  induction 1 as [|e tr He _ IH]; [done|]. destruct e; try done; exact IH.
Qed.

Lemma sync_beats tr : Forall isSync tr → beats tr = [].
Proof.
  induction 1 as [|e tr He _ IH]; [done|]. destruct e; try done; exact IH.
Qed.

Lemma sync_settlements tr : Forall isSync tr → settlements tr = [].
Proof.
  induction 1 as [|e tr He _ IH]; [done|]. destruct e; try done; exact IH.
Qed.

Lemma sync_calls tr e it :
  Forall isSync tr → e ∈ tr → callOf e = Some it → it ∈ attempts tr.
Proof.
  intros Hs He Hc. rewrite Forall_forall in Hs. specialize (Hs e He).
  destruct e; try done. cbn in Hc. injection Hc as <-.
  apply list_elem_of_omap. eexists. split; [exact He|done].
Qed.

Lemma pendingItems_items acts it : it ∈ pendingItems acts → it ∈ itemOf <$> acts.
Proof.
  intros (a & Ha & Hit)%list_elem_of_omap. destruct a as [|p]; [done|].
  injection Hit as <-. by apply (list_elem_of_fmap_2 itemOf _ (Suspended p)).
Qed.

Lemma pendingItems_pending acts it :
  it ∈ pendingItems acts →
  ∃ p, Suspended p ∈ acts ∧ it = (p_chainId p, p_address p).
Proof.
  intros (a & Ha & Hit)%list_elem_of_omap. destruct a as [|p]; [done|].
  injection Hit as <-. eauto.
Qed.

Section BatchShape.
Variable getSvgAsset : Z → string → string.
Variable browser : nat → Load.

Local Abbreviation call :=
  (λ vault, preloadImage getSvgAsset browser (chainId vault) (address (asset vault))).

(** A batch starts with its [Batch] event; what follows belongs to the
    calls of the batch: every one of them settles, every image that was
    requested gets its signal, and every [onerror] is logged. *)
Lemma preloadBatch_shape batch w :
  let r := preloadBatch getSvgAsset browser batch w in
  ∃ rest,
    trace r = Batch batch :: rest ∧
    batchesOf rest = [] ∧
    beats rest = [] ∧
    (∀ e it, e ∈ rest → callOf e = Some it → it ∈ item <$> batch) ∧
    settlements rest ≡ₚ (λ v, (item v, Fulfilled)) <$> batch ∧
    (∀ it, it ∈ attempts rest → ∃ s, ImageEvent it.1 it.2 s ∈ rest) ∧
    (∀ c a, ImageEvent c a onerror ∈ rest →
            ConsoleDebug ("Failed to preload image for " +:+ a +:+ ":")
                         {| message := "Failed to load image" |} ∈ rest).
Proof.
  cbn zeta.
  destruct (preloadBatch_run getSvgAsset browser batch w)
    as (acts & Ho & _ & Ht & _). cbn zeta in *.
  destruct (mapM_preloadImage getSvgAsset browser batch w)
    as (acts' & Ho' & Hit & _ & Hat & Hsy & _). cbn zeta in *.
  assert (acts' = acts) as -> by congruence.
  set (t1 := trace (mapM call batch w)) in *.
  exists (t1 ++ concat (settleTrace <$> settleOrder acts)).
  split; [done|]. split; [|split; [|split; [|split; [|split]]]].
  - by rewrite batchesOf_app, sync_batchesOf, settled_batchesOf.
  - by rewrite beats_app, sync_beats, settled_beats.
  - intros e it [He|He]%elem_of_app Hc.
    + rewrite <- Hit. apply pendingItems_items. rewrite <- Hat.
      by apply (sync_calls t1 e).
    + rewrite <- Hit, <- (settleOrder_perm acts). by apply (settled_calls _ e).
  - rewrite settlements_app, sync_settlements, settled_settlements by done.
    cbn [app]. rewrite settleOrder_perm.
    change (λ a, (itemOf a, Fulfilled)) with ((λ it : Z * string, (it, Fulfilled)) ∘ itemOf).
    rewrite list_fmap_compose, Hit, <- list_fmap_compose. done.
  - intros it Hin. rewrite attempts_app, settled_attempts, app_nil_r, Hat in Hin.
    apply pendingItems_pending in Hin as (p & Hp & ->).
    exists (signal (p_load p)). apply elem_of_app. right.
    apply settled_images. by rewrite settleOrder_perm.
  - intros c a [He|He]%elem_of_app.
    + rewrite Forall_forall in Hsy. by apply Hsy in He.
    + apply elem_of_app. right. by apply (settled_errors _ c).
Qed.


End BatchShape.

(** * Counting batches *)

Lemma batchCount_spec n :
  batchSize * batchCount n < n + batchSize ∧ n ≤ batchSize * batchCount n.
Proof.
  unfold batchCount, batchSize. cbn [Nat.sub].
  pose proof (Nat.div_mod_eq (n + 14) 15) as Hd.
  pose proof (Nat.mod_upper_bound (n + 14) 15) as Hm. lia.
Qed.

Lemma batchCount_unique n q :
  batchSize * q < n + batchSize → n ≤ batchSize * q → batchCount n = q.
Proof.
  pose proof (batchCount_spec n) as [H1 H2]. unfold batchSize in *. intros.
  generalize dependent (batchCount n). intros. lia.
Qed.

Lemma batchCount_step n :
  0 < n → batchCount n = S (batchCount (n - batchSize)).
Proof.
  intros Hn. apply batchCount_unique;
    pose proof (batchCount_spec (n - batchSize)) as [H1 H2]; unfold batchSize in *; lia.
Qed.

Lemma batchCount_pos n : 0 < n → 0 < batchCount n.
Proof. intros Hn. rewrite batchCount_step by done. lia. Qed.

Lemma paced_step ms n :
  paced ms (S n) = BatchBeat :: (if decide (0 < n) then [DelayBeat ms] else []) ++ paced ms n.
Proof. destruct n; [done|]. by rewrite decide_True by lia. Qed.

Lemma chunksFrom_done i vs : ¬ i < length vs → chunksFrom i vs = [].
Proof.
  intros Hi. unfold chunksFrom. by replace (length vs - i) with 0 by lia.
Qed.

Lemma chunksFrom_step i vs :
  i < length vs →
  chunksFrom i vs = slice i (i + batchSize) vs :: chunksFrom (i + batchSize) vs.
Proof.
  intros Hi. unfold chunksFrom. rewrite (batchCount_step (length vs - i)) by lia.
  cbn [seq fmap list_fmap]. f_equal.
  - f_equal; unfold batchSize; lia.
  - rewrite <- fmap_S_seq, <- list_fmap_compose.
    replace (length vs - (i + batchSize)) with (length vs - i - batchSize) by lia.
    apply list_fmap_ext. intros _ j _. unfold compose. f_equal; unfold batchSize; lia.
Qed.

(** * Cutting a trace at its batches *)

Lemma cut_app_quiet t t' :
  batchesOf t = [] → cut (t ++ t') = (t ++ (cut t').1, (cut t').2).
Proof.
  induction t as [|e t IH]; intros Hb; cbn [app cut].
  - by destruct (cut t').
  - destruct e; try done; cbn in Hb; rewrite (IH Hb); done.
Qed.

Lemma cut_quiet t : batchesOf t = [] → cut t = (t, []).
Proof.
  intros Hb. rewrite <- (app_nil_r t) at 1. rewrite cut_app_quiet by done.
  cbn. by rewrite app_nil_r.
Qed.

Lemma segments_batchesOf t : (segments t).*1 = batchesOf t.
Proof.
  unfold segments. induction t as [|e t IH]; [done|]. cbn [cut].
  destruct (cut t) as [before segs] eqn:Hc. cbn in IH.
  destruct e; cbn; try done. by rewrite IH.
Qed.

Lemma quiet_settlements t : Forall (λ e, callOf e = None) t → settlements t = [].
Proof.
  induction 1 as [|e t He _ IH]; [done|]. destruct e; try done; exact IH.
Qed.

Lemma quiet_attempts t : Forall (λ e, callOf e = None) t → attempts t = [].
Proof.
  induction 1 as [|e t He _ IH]; [done|]. destruct e; try done; exact IH.
Qed.

(** * The loop, as a whole *)

Section RunFacts.
Variable getSvgAsset : Z → string → string.
Variable browser : nat → Load.

Local Abbreviation preloadBatch' := (preloadBatch getSvgAsset browser).
Local Abbreviation loop' := (loop getSvgAsset browser).

Lemma loop_Sound fuel : ∀ i w,
  Sound getSvgAsset w (attempts (trace (loop' fuel i w))) (final (loop' fuel i w)).
Proof.
  induction fuel as [|fuel IH]; intros i w;
    destruct (decide (i < length (vaults w))) as [Hi|Hi].
  - destruct (loop_out getSvgAsset browser i w Hi) as (_ & -> & ->). apply Sound_refl.
  - destruct (loop_done getSvgAsset browser 0 i w Hi) as (_ & -> & ->). apply Sound_refl.
  - destruct (loop_step getSvgAsset browser fuel i w Hi) as (_ & -> & ->).
    rewrite !attempts_app.
    replace (attempts (if decide (i + batchSize < length (vaults w))
                       then [SetTimeout delay] else [])) with (@nil (Z * string))
      by by case_decide.
    cbn [app]. eapply Sound_trans; [apply preloadBatch_Sound|apply IH].
  - destruct (loop_done getSvgAsset browser (S fuel) i w Hi) as (_ & -> & ->).
    apply Sound_refl.
Qed.

(** With [vaults.length] turns to spend, the loop comes to its end. *)
Lemma loop_total fuel : ∀ i w,
  length (vaults w) - i ≤ fuel → outcome (loop' fuel i w) = Normal tt.
Proof.
  induction fuel as [|fuel IH]; intros i w Hf;
    destruct (decide (i < length (vaults w))) as [Hi|Hi]; try lia.
  - by destruct (loop_done getSvgAsset browser 0 i w Hi) as (-> & _).
  - destruct (loop_step getSvgAsset browser fuel i w Hi) as (-> & _).
    destruct (preloadBatch_Sound getSvgAsset browser
                (slice i (i + batchSize) (vaults w)) w) as (Hv & _).
    apply IH. rewrite Hv. unfold batchSize. lia.
  - by destruct (loop_done getSvgAsset browser (S fuel) i w Hi) as (-> & _).
Qed.

Lemma loop_beats fuel : ∀ i w,
  length (vaults w) - i ≤ fuel →
  beats (trace (loop' fuel i w)) = paced delay (batchCount (length (vaults w) - i)).
Proof.
  induction fuel as [|fuel IH]; intros i w Hf;
    destruct (decide (i < length (vaults w))) as [Hi|Hi]; try lia.
  - destruct (loop_done getSvgAsset browser 0 i w Hi) as (_ & _ & ->).
    by replace (length (vaults w) - i) with 0 by lia.
  - destruct (loop_step getSvgAsset browser fuel i w Hi) as (_ & _ & ->).
    destruct (preloadBatch_Sound getSvgAsset browser
                (slice i (i + batchSize) (vaults w)) w) as (Hv & _).
    destruct (preloadBatch_shape getSvgAsset browser
                (slice i (i + batchSize) (vaults w)) w) as (rest & Ht & _ & Hb & _).
    cbn zeta in *. rewrite !beats_app, IH by (rewrite Hv; unfold batchSize; lia).
    rewrite Ht, Hv. cbn [beats omap list_omap]. fold (beats rest). rewrite Hb. cbn [app].
    rewrite (batchCount_step (length (vaults w) - i)) by lia.
    rewrite paced_step.
    replace (length (vaults w) - (i + batchSize))
      with (length (vaults w) - i - batchSize) by lia.
    f_equal. f_equal.
    destruct (decide (i + batchSize < length (vaults w))) as [Hlt|Hge].
    + rewrite decide_True; [done|]. apply batchCount_pos. lia.
    + rewrite decide_False; [done|].
      replace (length (vaults w) - i - batchSize) with 0 by lia. cbn. lia.
  - destruct (loop_done getSvgAsset browser (S fuel) i w Hi) as (_ & _ & ->).
    by replace (length (vaults w) - i) with 0 by lia.
Qed.

Lemma loop_batches fuel : ∀ i w,
  length (vaults w) - i ≤ fuel →
  batchesOf (trace (loop' fuel i w)) = chunksFrom i (vaults w).
Proof.
  induction fuel as [|fuel IH]; intros i w Hf;
    destruct (decide (i < length (vaults w))) as [Hi|Hi]; try lia.
  - destruct (loop_done getSvgAsset browser 0 i w Hi) as (_ & _ & ->).
    by rewrite chunksFrom_done.
  - destruct (loop_step getSvgAsset browser fuel i w Hi) as (_ & _ & ->).
    destruct (preloadBatch_Sound getSvgAsset browser
                (slice i (i + batchSize) (vaults w)) w) as (Hv & _).
    destruct (preloadBatch_shape getSvgAsset browser
                (slice i (i + batchSize) (vaults w)) w) as (rest & Ht & Hb & _).
    cbn zeta in *. rewrite !batchesOf_app, IH by (rewrite Hv; unfold batchSize; lia).
    rewrite Ht, Hv. cbn [batchesOf omap list_omap]. fold (batchesOf rest). rewrite Hb.
    replace (batchesOf (if decide (i + batchSize < length (vaults w))
                        then [SetTimeout delay] else [])) with (@nil (list VaultData))
      by by case_decide.
    cbn [app]. by rewrite (chunksFrom_step i).
  - destruct (loop_done getSvgAsset browser (S fuel) i w Hi) as (_ & _ & ->).
    by rewrite chunksFrom_done.
Qed.

(** The trace of the loop, followed by events of no call, cuts into
    segments that are each batch's own. *)
Lemma loop_segments tail fuel :
  Forall (λ e, callOf e = None) tail →
  batchesOf tail = [] →
  ∀ i w,
  Forall (λ e, callOf e = None) (cut (trace (loop' fuel i w) ++ tail)).1 ∧
  Forall ownSegment (segments (trace (loop' fuel i w) ++ tail)).
Proof.
  intros Hq Hb.
  induction fuel as [|fuel IH]; intros i w;
    destruct (decide (i < length (vaults w))) as [Hi|Hi].
  - destruct (loop_out getSvgAsset browser i w Hi) as (_ & _ & ->).
    unfold segments. cbn [app]. rewrite cut_quiet by done. by split.
  - destruct (loop_done getSvgAsset browser 0 i w Hi) as (_ & _ & ->).
    unfold segments. cbn [app]. rewrite cut_quiet by done. by split.
  - destruct (loop_step getSvgAsset browser fuel i w Hi) as (_ & _ & ->).
    destruct (preloadBatch_shape getSvgAsset browser
                (slice i (i + batchSize) (vaults w)) w)
      as (rest & Ht & Hbr & _ & Hcalls & Hsett & Himg & _).
    cbn zeta in *. rewrite Ht.
    set (batch := slice i (i + batchSize) (vaults w)) in *.
    set (pause := if decide (i + batchSize < length (vaults w))
                  then [SetTimeout delay] else []).
    set (t2 := trace (loop' fuel (i + batchSize) (final (preloadBatch' batch w)))).
    destruct (IH (i + batchSize) (final (preloadBatch' batch w))) as [IH1 IH2].
    fold t2 in IH1, IH2.
    assert (Hpq : Forall (λ e, callOf e = None) pause)
      by (unfold pause; case_decide; repeat constructor).
    assert (Hpb : batchesOf pause = []) by (unfold pause; by case_decide).
    replace (((Batch batch :: rest) ++ pause ++ t2) ++ tail)
      with (Batch batch :: (rest ++ pause) ++ (t2 ++ tail))
      by (cbn; by rewrite <- !app_assoc).
    unfold segments in *. cbn [cut].
    rewrite cut_app_quiet by (by rewrite batchesOf_app, Hbr, Hpb).
    destruct (cut (t2 ++ tail)) as [before segs] eqn:Hcut. cbn [fst snd] in *.
    split; [done|]. constructor; [|done].
    assert (Hqq : Forall (λ e, callOf e = None) (pause ++ before))
      by by apply Forall_app.
    rewrite <- app_assoc. split; [|split]; cbn [fst snd].
    + intros e it [He|He]%elem_of_app Hc; [by apply (Hcalls e)|].
      rewrite Forall_forall in Hqq. apply Hqq in He. congruence.
    + by rewrite settlements_app, (quiet_settlements _ Hqq), app_nil_r.
    + intros it. rewrite attempts_app, (quiet_attempts _ Hqq), app_nil_r.
      intros (s & Hs)%Himg. exists s. apply elem_of_app. by left.
  - destruct (loop_done getSvgAsset browser (S fuel) i w Hi) as (_ & _ & ->).
    unfold segments. cbn [app]. rewrite cut_quiet by done. by split.
Qed.
End RunFacts.

(** * The run *)

Lemma chunksFrom_lookup i vs j batch :
  chunksFrom i vs !! j = Some batch →
  j < batchCount (length vs - i) ∧
  batch = slice (i + batchSize * j) (i + batchSize * j + batchSize) vs.
Proof.
  unfold chunksFrom. rewrite list_lookup_fmap.
  destruct (seq 0 (batchCount (length vs - i)) !! j) as [j'|] eqn:Hj; [|done].
  apply lookup_seq in Hj as [-> Hj]. cbn. intros [= <-]. done.
Qed.

Lemma chunksFrom_concat vs n : ∀ i,
  length vs - i ≤ n → concat (chunksFrom i vs) = drop i vs.
Proof.
  induction n as [|n IH]; intros i Hn;
    destruct (decide (i < length vs)) as [Hi|Hi]; try lia.
  - rewrite chunksFrom_done, drop_ge by lia. done.
  - rewrite chunksFrom_step by done. cbn [concat].
    rewrite IH by (unfold batchSize; lia).
    unfold slice. replace (i + batchSize - i) with batchSize by lia.
    rewrite <- (drop_drop vs batchSize i). apply take_drop.
  - rewrite chunksFrom_done, drop_ge by lia. done.
Qed.

Lemma slice_length {A} (l : list A) a b :
  length (slice a b l) = Nat.min (b - a) (length l - a).
Proof. unfold slice. by rewrite length_take, length_drop. Qed.

Lemma slice_lookup {A} (l : list A) a b k :
  k < b - a → slice a b l !! k = l !! (a + k).
Proof. intros Hk. unfold slice. by rewrite lookup_take_lt, lookup_drop. Qed.

Lemma filter_none {A} (P : A → Prop) `{∀ x, Decision (P x)} (l : list A) :
  (∀ y, y ∈ l → ¬ P y) → filter P l = [].
Proof.
  induction l as [|x l IH]; intros Hl; [done|].
  rewrite filter_cons, decide_False by (apply Hl; set_solver).
  apply IH. intros y Hy. apply Hl. set_solver.
Qed.

Lemma NoDup_fmap_filter_le {A B} (f : A → B) (P : A → Prop)
    `{∀ x, Decision (P x)} (l : list A) (k : B) :
  NoDup (f <$> l) → (∀ x, P x → f x = k) → length (filter P l) ≤ 1.
Proof.
  intros Hnd HP. induction l as [|x l IH]; [cbn; lia|].
  cbn in Hnd. apply NoDup_cons in Hnd as [Hx Hnd].
  rewrite filter_cons. case_decide as HPx; [|by apply IH].
  cbn. assert (filter P l = []) as ->; [|cbn; lia].
  apply filter_none. intros y Hy HPy. apply Hx.
  rewrite (HP x HPx), <- (HP y HPy). by apply list_elem_of_fmap_2.
Qed.

Section WholeRun.
Variable getSvgAsset : Z → string → string.
Variable browser : nat → Load.

Local Abbreviation run := (preloadInBatches getSvgAsset browser).
Local Abbreviation loop' := (loop getSvgAsset browser).

Lemma preloadInBatches_run w :
  outcome (run w) = Normal tt ∧
  final (run w) = final (loop' (length (vaults w)) 0 w) ∧
  trace (run w) =
    ConsoleLog ("Starting to preload " +:+ pretty (length (vaults w)) +:+
                " token images in batches of " +:+ pretty batchSize)
    :: trace (loop' (length (vaults w)) 0 w)
    ++ [ConsoleLog "Finished preloading token images"].
Proof.
  pose proof (vaults_length_run w) as Hl.
  pose proof (loop_total getSvgAsset browser (length (vaults w)) 0 w) as Ho.
  specialize (Ho ltac:(lia)).
  unfold preloadInBatches.
  rewrite (bind_outcome _ _ _ _ Hl), (bind_final _ _ _ _ Hl), (bind_trace _ _ _ _ Hl).
  cbn [vaults_length final trace app].
  set (msg := "Starting to preload " +:+ _).
  assert (He : outcome (console_log msg w) = Normal tt) by done.
  rewrite (bind_outcome _ _ _ _ He), (bind_final _ _ _ _ He), (bind_trace _ _ _ _ He).
  cbn [console_log emit final trace app].
  by rewrite (bind_outcome _ _ _ _ Ho), (bind_final _ _ _ _ Ho), (bind_trace _ _ _ _ Ho).
Qed.

Lemma preloadInBatches_Sound w :
  Sound getSvgAsset w (attempts (trace (run w))) (final (run w)).
Proof.
  destruct (preloadInBatches_run w) as (_ & -> & ->).
  cbn [attempts omap list_omap]. fold (attempts (trace (loop' (length (vaults w)) 0 w)
    ++ [ConsoleLog "Finished preloading token images"])).
  rewrite attempts_app. cbn [attempts omap list_omap]. rewrite app_nil_r.
  apply loop_Sound.
Qed.

Lemma preloadInBatches_batches w :
  batchesOf (trace (run w)) = chunksFrom 0 (vaults w).
Proof.
  destruct (preloadInBatches_run w) as (_ & _ & ->).
  cbn [batchesOf omap list_omap]. fold (batchesOf (trace (loop' (length (vaults w)) 0 w)
    ++ [ConsoleLog "Finished preloading token images"])).
  rewrite batchesOf_app. cbn [batchesOf omap list_omap]. rewrite app_nil_r.
  apply loop_batches. lia.
Qed.

Lemma preloadInBatches_beats w :
  beats (trace (run w)) = paced delay (batchCount (length (vaults w))).
Proof.
  destruct (preloadInBatches_run w) as (_ & _ & ->).
  cbn [beats omap list_omap]. fold (beats (trace (loop' (length (vaults w)) 0 w)
    ++ [ConsoleLog "Finished preloading token images"])).
  rewrite beats_app. cbn [beats omap list_omap]. rewrite app_nil_r.
  rewrite loop_beats by lia. by rewrite Nat.sub_0_r.
Qed.

Lemma preloadInBatches_segments w :
  Forall ownSegment (segments (trace (run w))).
Proof.
  destruct (preloadInBatches_run w) as (_ & _ & ->).
  destruct (loop_segments getSvgAsset browser
              [ConsoleLog "Finished preloading token images"]
              (length (vaults w))) with (i := 0) (w := w) as [_ Hs].
  { by repeat constructor. }
  { done. }
  unfold segments in *. cbn [cut].
  by destruct (cut _).
Qed.
End WholeRun.

(** * Pacing *)

Lemma delays_beats tr :
  delays tr = omap (λ b, match b with DelayBeat ms => Some ms | BatchBeat => None end)
                   (beats tr).
Proof.
  unfold delays, beats. induction tr as [|e tr IH]; [done|].
  destruct e; cbn; congruence.
Qed.

Lemma paced_delays ms n :
  omap (λ b, match b with DelayBeat ms => Some ms | BatchBeat => None end) (paced ms n)
  = replicate (n - 1) ms.
Proof.
  destruct n as [|n]; [done|]. cbn [paced Nat.sub omap list_omap].
  rewrite Nat.sub_0_r. induction n as [|n IH]; [done|]. cbn. by rewrite IH.
Qed.

Lemma paced_last ms n ms' : last (paced ms n) ≠ Some (DelayBeat ms').
Proof.
  destruct n as [|n]; [done|]. cbn [paced].
  induction n as [|n IH]; [done|]. cbn in *.
  destruct (concat (replicate n [DelayBeat ms; BatchBeat])); [done|]. exact IH.
Qed.

(** * Letter case *)

Lemma lowerChar_idemp c : lowerChar (lowerChar c) = lowerChar c.
Proof. destruct c as [[] [] [] [] [] [] [] []]; reflexivity. Qed.

Lemma sameLetter_lower c d : sameLetter c d → lowerChar c = lowerChar d.
Proof.
  intros [->|[[_ ->]|[_ ->]]]; [done| |]; by rewrite lowerChar_idemp.
Qed.

Lemma sameUpToCase_lower s t : sameUpToCase s t → toLowerCase s = toLowerCase t.
Proof.
  induction 1 as [|c d s t Hcd _ IH]; [done|]. cbn.
  by rewrite (sameLetter_lower c d Hcd), IH.
Qed.

(** * The claims about a run *)

(** C1. For an input of N vault references the scheduler forms exactly
    ceil(N/15) batches; batch j (from 0) is the input items 15*j up to
    min(15*(j+1), N) - 1, in input order; every batch has 15 items except
    possibly the last; and the batches are processed strictly in input order:
    cut at its batches, the trace shows each batch with the events of its own
    calls, all settled, before the next batch. *)
Theorem batches_partition_the_input getSvgAsset browser w :
  let N := length (vaults w) in
  let r := preloadInBatches getSvgAsset browser w in
  let bs := batchesOf (trace r) in
  batchSize = 15 ∧
  outcome r = Normal tt ∧
  length bs = batchCount N ∧
  (batchSize * batchCount N < N + batchSize ∧ N ≤ batchSize * batchCount N) ∧
  (∀ j batch, bs !! j = Some batch →
     length batch = Nat.min (batchSize * (j + 1)) N - batchSize * j ∧
     (∀ k, batchSize * j ≤ k < Nat.min (batchSize * (j + 1)) N →
           batch !! (k - batchSize * j) = vaults w !! k) ∧
     (j + 1 < length bs → length batch = batchSize) ∧
     0 < length batch ≤ batchSize) ∧
  concat bs = vaults w ∧
  (segments (trace r)).*1 = bs ∧
  Forall ownSegment (segments (trace r)).
Proof.
  cbn zeta. rewrite preloadInBatches_batches.
  assert (Hlen : length (chunksFrom 0 (vaults w)) = batchCount (length (vaults w))).
  { unfold chunksFrom. by rewrite length_fmap, length_seq, Nat.sub_0_r. }
  pose proof (batchCount_spec (length (vaults w))) as Hspec.
  split; [done|]. split; [apply preloadInBatches_run|]. split; [done|]. split; [done|].
  split; [|split; [|split]].
  - intros j batch Hj. apply chunksFrom_lookup in Hj as [Hj ->].
    rewrite Nat.sub_0_r in Hj. rewrite Hlen, slice_length.
    unfold batchSize in *. cbn [Nat.add].
    split; [lia|]. split; [|split; [lia|lia]].
    intros k Hk. rewrite slice_lookup by lia. f_equal. lia.
  - rewrite (chunksFrom_concat _ (length (vaults w))) by lia. apply drop_0.
  - rewrite segments_batchesOf. apply preloadInBatches_batches.
  - apply preloadInBatches_segments.
Qed.

(** C2. One pacing delay of 150 ms comes between each two consecutive
    batches and none after the last: the rhythm of a run over N items is
    batch, delay, batch, ..., batch, with ceil(N/15) - 1 delays in all, so none
    when the input fits one batch. *)
Theorem pacing_delay_between_batches getSvgAsset browser w :
  let N := length (vaults w) in
  let r := preloadInBatches getSvgAsset browser w in
  beats (trace r) = paced 150 (batchCount N) ∧
  delays (trace r) = replicate (batchCount N - 1) 150 ∧
  (∀ ms, last (beats (trace r)) ≠ Some (DelayBeat ms)) ∧
  (N ≤ batchSize → delays (trace r) = []).
Proof.
  cbn zeta. rewrite delays_beats, preloadInBatches_beats. change delay with 150.
  split; [done|]. split; [apply paced_delays|]. split; [intros ms; apply paced_last|].
  intros HN. rewrite paced_delays.
  destruct (decide (0 < length (vaults w))) as [Hpos|Hz].
  - rewrite batchCount_step by done.
    by replace (length (vaults w) - batchSize) with 0 by lia.
  - by replace (length (vaults w)) with 0 by lia.
Qed.

(** The example of the specification: 20 vault references give a batch of
    the items 0-14, a delay of 150 ms, a batch of the items 15-19, and no
    delay at the end. *)
Example twenty_vaults_two_batches :
  let vs := Sample.vaultNo <$> seq 0 20 in
  let r := preloadInBatches Sample.getSvgAsset Sample.allLoad (Sample.worldWith vs ∅) in
  batchesOf (trace r) = [Sample.vaultNo <$> seq 0 15; Sample.vaultNo <$> seq 15 5] ∧
  beats (trace r) = [BatchBeat; DelayBeat 150; BatchBeat] ∧
  length (attempts (trace r)) = 20.
Proof. cbn zeta. split; [by vm_compute|]. split; by vm_compute. Qed.


(** C4. Within a run every cache key is attempted at most once: the keys of
    the attempts are pairwise different, whatever the input repeats and
    whatever loads fail; an attempted key was not marked when the run began
    and is marked when it ends; and a call that attempts a load has marked
    its key by the time it stops at its [await]. *)
Theorem one_attempt_per_key_in_a_run getSvgAsset browser w :
  let r := preloadInBatches getSvgAsset browser w in
  NoDup (attemptedKeys (trace r)) ∧
  (∀ k, length (filter (λ it, keyOf it = k) (attempts (trace r))) ≤ 1) ∧
  (∀ k, k ∈ attemptedKeys (trace r) → (k ∉ preloadedSet w) ∧ k ∈ preloadedSet (final r)) ∧
  (∀ c a w0, (c, a) ∈ attempts (trace (preloadImage getSvgAsset browser c a w0)) →
             (cacheKey c a ∉ preloadedSet w0) ∧
             cacheKey c a ∈ preloadedSet (final (preloadImage getSvgAsset browser c a w0))).
Proof.
  cbn zeta.
  destruct (preloadInBatches_Sound getSvgAsset browser w) as (_ & Hnd & Hfr & Hset & _).
  fold (attemptedKeys (trace (preloadInBatches getSvgAsset browser w))) in *.
  split; [done|]. split; [|split].
  - intros k. by apply (NoDup_fmap_filter_le keyOf _ _ k).
  - intros k Hk. split; [by apply Hfr|]. rewrite Hset. set_solver.
  - intros c a w0 Hin.
    destruct (preloadImage_cases getSvgAsset browser c a w0)
      as [(_ & _ & Ha & _)|(p & _ & _ & _ & _ & _ & _ & _ & _ & _ & _ & Hset0 & Hnin & _)];
      cbn zeta in *.
    + rewrite Ha in Hin. by apply elem_of_nil in Hin.
    + split; [done|]. rewrite Hset0. set_solver.
Qed.

(** C5, as amended.  A vault reference whose query key holds a truthy value
    in the shared cache when it is processed gives no load attempt: the call
    returns at once and leaves the world as it found it. *)
Theorem cached_reference_is_not_loaded getSvgAsset browser c a w :
  truthy (queryCache w !! queryKey c a) = true →
  let r := preloadImage getSvgAsset browser c a w in
  attempts (trace r) = [] ∧ outcome r = Normal (Returned c a) ∧ final r = w.
Proof.
  intros Htr. cbn zeta.
  destruct (preloadImage_cases getSvgAsset browser c a w)
    as [(Ho & Hf & Ha & _)|(p & _ & _ & _ & _ & _ & _ & _ & _ & _ & _ & _ & _ & Hfalse)];
    cbn zeta in *; [done|congruence].
Qed.

(** C6. Two vault references of one chain whose addresses are equal up to
    letter case have the same cache key (and the same query key), and a run
    attempts at most one load for the two of them together. *)
Theorem case_variants_share_one_attempt getSvgAsset browser w c a1 a2 :
  sameUpToCase a1 a2 →
  cacheKey c a1 = cacheKey c a2 ∧
  queryKey c a1 = queryKey c a2 ∧
  length (filter (λ it, it = (c, a1) ∨ it = (c, a2))
                 (attempts (trace (preloadInBatches getSvgAsset browser w)))) ≤ 1.
Proof.
  intros Hsame. pose proof (sameUpToCase_lower a1 a2 Hsame) as Hlow.
  assert (Hk : cacheKey c a1 = cacheKey c a2) by (unfold cacheKey; by rewrite Hlow).
  split; [done|]. split; [unfold queryKey; by rewrite Hlow|].
  destruct (preloadInBatches_Sound getSvgAsset browser w) as (_ & Hnd & _).
  apply (NoDup_fmap_filter_le keyOf _ _ (cacheKey c a1)); [done|].
  intros it [->| ->]; unfold keyOf; cbn [fst snd]; congruence.
Qed.

(** C9. A run returns no value and leaves the caller's array as it was; what
    it changes is its set of attempted keys, which only grows by the keys it
    attempts, and the shared cache, where a key holds what it held or the
    image URL of one of the run's attempts. *)
Theorem run_only_populates_the_cache getSvgAsset browser w :
  let r := preloadInBatches getSvgAsset browser w in
  outcome r = Normal tt ∧
  vaults (final r) = vaults w ∧
  preloadedSet (final r) = list_to_set (attemptedKeys (trace r)) ∪ preloadedSet w ∧
  (∀ k, queryCache (final r) !! k = queryCache w !! k ∨
        ∃ it, it ∈ attempts (trace r) ∧ queryKey it.1 it.2 = k ∧
              queryCache (final r) !! k = Some (DString (getSvgAsset it.1 it.2))).
Proof.
  cbn zeta.
  destruct (preloadInBatches_Sound getSvgAsset browser w) as (Hv & _ & _ & Hset & Hc).
  split; [apply preloadInBatches_run|]. done.
Qed.


(** * The life cycle *)

Section LifecycleFacts.
Variable getSvgAsset : Z → string → string.
Variable browser : nat → Load.

Local Abbreviation fire' := (fire getSvgAsset browser).
Local Abbreviation elapse' := (elapse getSvgAsset browser).
Local Abbreviation step' := (step getSvgAsset browser).
Local Abbreviation lifecycle' := (lifecycle getSvgAsset browser).

Lemma foldl_fire ts : ∀ h,
  let h' := foldl fire' h ts in
  timers h' = timers h ∧ nextTimeoutId h' = nextTimeoutId h ∧
  cleanup h' = cleanup h ∧ mounted h' = mounted h ∧
  (log h').*1 = (log h).*1 ++ (timeoutId <$> ts).
Proof.
  induction ts as [|t ts IH]; intros h; cbn zeta.
  - cbn. by rewrite app_nil_r.
  - cbn [foldl]. destruct (IH (fire' h t)) as (-> & -> & -> & -> & ->).
    cbn. rewrite fmap_app, <- app_assoc. done.
Qed.

Lemma elapse_fields ms h :
  let h' := elapse' ms h in
  timers h' = tick ms <$> filter (λ t, ms < remaining t) (timers h) ∧
  nextTimeoutId h' = nextTimeoutId h ∧
  cleanup h' = cleanup h ∧ mounted h' = mounted h ∧
  (log h').*1 = (log h).*1 ++
    (timeoutId <$> merge_sort firesBefore (filter (λ t, remaining t ≤ ms) (timers h))).
Proof.
  cbn zeta. unfold elapse.
  set (due := merge_sort _ _). set (h0 := Build_Hook _ _ _ _ _ _).
  exact (foldl_fire due h0).
Qed.

Lemma lifecycle_app evs evs' h :
  lifecycle' (evs ++ evs') h = lifecycle' evs' (lifecycle' evs h).
Proof. unfold lifecycle. apply foldl_app. Qed.

(** ** The set of attempted keys lives as long as the hook *)

Lemma history_fire h t :
  history (fire' h t) =
    history h ++ trace (preloadInBatches getSvgAsset browser
                          {| vaults := closure t;
                             preloadedSet := preloadedSet (world h);
                             queryCache := queryCache (world h);
                             requested := requested (world h) |}).
Proof.
  unfold history, fire. cbn [log]. rewrite fmap_app, concat_app. cbn.
  by rewrite app_nil_r.
Qed.

Lemma fire_attemptedOnce h t : attemptedOnce h → attemptedOnce (fire' h t).
Proof.
  intros [Hnd Hin]. unfold attemptedOnce. rewrite history_fire, attemptedKeys_app.
  set (w0 := {| vaults := closure t; preloadedSet := preloadedSet (world h);
                queryCache := queryCache (world h); requested := requested (world h) |}).
  destruct (preloadInBatches_Sound getSvgAsset browser w0) as (_ & Hnd' & Hfr & Hset & _).
  fold (attemptedKeys (trace (preloadInBatches getSvgAsset browser w0))) in *.
  cbn [fire world]. fold w0. split.
  - apply NoDup_app. split; [done|]. split; [|done].
    intros k Hk Hk'. apply Hfr in Hk'. apply Hin in Hk. done.
  - intros k [Hk|Hk]%elem_of_app; rewrite Hset; [|set_solver].
    apply Hin in Hk. set_solver.
Qed.

Lemma foldl_fire_attemptedOnce ts : ∀ h,
  attemptedOnce h → attemptedOnce (foldl fire' h ts).
Proof.
  induction ts as [|t ts IH]; intros h Hh; [done|].
  cbn [foldl]. by apply IH, fire_attemptedOnce.
Qed.

Lemma step_attemptedOnce h ev : attemptedOnce h → attemptedOnce (step' h ev).
Proof.
  intros Hh. destruct ev as [vs| |ms]; cbn [step].
  - unfold usePreloadTokenImages, effect, runCleanup, clearTimeout.
    destruct (mounted h); [|done].
    destruct (cleanup h); case_decide; exact Hh.
  - unfold unmount, runCleanup, clearTimeout. destruct (cleanup h); exact Hh.
  - unfold elapse. apply foldl_fire_attemptedOnce. exact Hh.
Qed.

Lemma lifecycle_attemptedOnce evs : ∀ h,
  attemptedOnce h → attemptedOnce (lifecycle' evs h).
Proof.
  induction evs as [|ev evs IH]; intros h Hh; [done|].
  apply IH, step_attemptedOnce, Hh.
Qed.

(** ** Timeouts *)

Lemma runCleanup_clears h :
  timersOwned h →
  timers (runCleanup h) = [] ∧ world (runCleanup h) = world h ∧
  log (runCleanup h) = log h ∧ nextTimeoutId (runCleanup h) = nextTimeoutId h ∧
  mounted (runCleanup h) = mounted h.
Proof.
  intros (Hown & _ & _). unfold runCleanup, clearTimeout.
  destruct (cleanup h) as [id|] eqn:Hc; cbn.
  - repeat split; try done. apply filter_none. intros t Ht Hne.
    apply Hown in Ht. congruence.
  - repeat split; try done. destruct (timers h) as [|t ts]; [done|].
    specialize (Hown t ltac:(set_solver)). done.
Qed.

Lemma step_timersOwned h ev : timersOwned h → timersOwned (step' h ev).
Proof.
  intros Hh. pose proof Hh as (Hown & Hlt & Hlog).
  destruct ev as [vs| |ms]; cbn [step].
  - unfold usePreloadTokenImages. destruct (mounted h); [|done].
    destruct (runCleanup_clears h Hh) as (Ht & _ & Hl & Hn & _).
    unfold effect. case_decide; unfold timersOwned; cbn; rewrite Ht, Hl, Hn.
    + repeat split; [by intros t ?%elem_of_nil|by intros t ?%elem_of_nil|done].
    + repeat split.
      * by intros t ->%list_elem_of_singleton.
      * intros t ->%list_elem_of_singleton. cbn. lia.
      * intros id Hid. apply Hlog in Hid. lia.
  - destruct (runCleanup_clears h Hh) as (Ht & _ & Hl & Hn & _).
    unfold unmount, timersOwned. cbn. rewrite Ht, Hl, Hn.
    repeat split; [by intros t ?%elem_of_nil|by intros t ?%elem_of_nil|done].
  - destruct (elapse_fields ms h) as (Ht & Hn & Hc & _ & Hl). cbn zeta in *.
    unfold timersOwned. rewrite Ht, Hn, Hc, Hl. repeat split.
    + intros t (u & -> & Hu)%list_elem_of_fmap. apply list_elem_of_filter in Hu as [_ Hu].
      cbn. by apply Hown.
    + intros t (u & -> & Hu)%list_elem_of_fmap. apply list_elem_of_filter in Hu as [_ Hu].
      cbn. by apply Hlt.
    + intros id [Hid|Hid]%elem_of_app; [by apply Hlog|].
      apply list_elem_of_fmap in Hid as (u & -> & Hu).
      rewrite merge_sort_Permutation in Hu.
      apply list_elem_of_filter in Hu as [_ Hu]. by apply Hlt.
Qed.

Lemma lifecycle_timersOwned evs : ∀ h,
  timersOwned h → timersOwned (lifecycle' evs h).
Proof.
  induction evs as [|ev evs IH]; intros h Hh; [done|].
  apply IH, step_timersOwned, Hh.
Qed.

Lemma mountWith_timersOwned cache n : timersOwned (mountWith cache n).
Proof.
  unfold timersOwned. cbn.
  repeat split; intros ? ?%elem_of_nil; done.
Qed.

Lemma step_cancelled id h ev : cancelled id h → cancelled id (step' h ev).
Proof.
  intros (Hne & Hlt & Hlog). destruct ev as [vs| |ms]; cbn [step].
  - unfold usePreloadTokenImages. destruct (mounted h); [|done].
    assert (Hc : ∀ t, t ∈ timers (runCleanup h) → timeoutId t ≠ id).
    { unfold runCleanup, clearTimeout. destruct (cleanup h); cbn; [|done].
      intros t [_ Ht]%list_elem_of_filter. by apply Hne. }
    assert (Hr : nextTimeoutId (runCleanup h) = nextTimeoutId h
                 ∧ log (runCleanup h) = log h).
    { unfold runCleanup, clearTimeout. by destruct (cleanup h). }
    destruct Hr as [Hn Hl].
    unfold effect. case_decide; unfold cancelled; cbn; rewrite Hn, Hl.
    + done.
    + repeat split; [|lia|done].
      intros t [Ht| ->%list_elem_of_singleton]%elem_of_app; [by apply Hc|]. cbn. lia.
  - unfold unmount, cancelled, runCleanup, clearTimeout.
    destruct (cleanup h); cbn; repeat split; try done.
    intros t [_ Ht]%list_elem_of_filter. by apply Hne.
  - destruct (elapse_fields ms h) as (Ht & Hn & _ & _ & Hl). cbn zeta in *.
    unfold cancelled. rewrite Ht, Hn, Hl. repeat split; [|done|].
    + intros t (u & -> & Hu)%list_elem_of_fmap. apply list_elem_of_filter in Hu as [_ Hu].
      cbn. by apply Hne.
    + intros [Hid|Hid]%elem_of_app; [done|].
      apply list_elem_of_fmap in Hid as (u & Hid & Hu).
      rewrite merge_sort_Permutation in Hu.
      apply list_elem_of_filter in Hu as [_ Hu]. by apply Hne in Hu.
Qed.

Lemma lifecycle_cancelled id evs : ∀ h,
  cancelled id h → cancelled id (lifecycle' evs h).
Proof.
  induction evs as [|ev evs IH]; intros h Hh; [done|].
  apply IH, step_cancelled, Hh.
Qed.

(** While its one timeout is not due, a hook only waits. *)
Lemma elapse_waiting ms h t :
  timers h = [t] → ms < remaining t →
  let h' := elapse' ms h in
  timers h' = [tick ms t] ∧ world h' = world h ∧ log h' = log h ∧
  nextTimeoutId h' = nextTimeoutId h ∧ cleanup h' = cleanup h ∧
  mounted h' = mounted h.
Proof.
  intros Ht Hms. cbn zeta. unfold elapse. rewrite Ht.
  rewrite (filter_none (λ t, remaining t ≤ ms) [t])
    by (intros u ->%list_elem_of_singleton; lia).
  rewrite filter_cons, decide_True by done. done.
Qed.

Lemma elapses_waiting ds : ∀ h t,
  timers h = [t] → sum_list ds < remaining t →
  let h' := lifecycle' (Elapse <$> ds) h in
  timers h' = [tick (sum_list ds) t] ∧ world h' = world h ∧ log h' = log h ∧
  nextTimeoutId h' = nextTimeoutId h ∧ cleanup h' = cleanup h ∧
  mounted h' = mounted h.
Proof.
  induction ds as [|d ds IH]; intros h t Ht Hsum; cbn zeta.
  - cbn. rewrite Ht. repeat split. f_equal. destruct t. unfold tick. cbn.
    by rewrite Nat.sub_0_r.
  - change (lifecycle' (Elapse <$> d :: ds) h)
      with (lifecycle' (Elapse <$> ds) (elapse' d h)).
    change (sum_list (d :: ds)) with (d + sum_list ds) in *.
    destruct (elapse_waiting d h t Ht ltac:(lia)) as (Ht' & Hw & Hl & Hn & Hc & Hm).
    destruct (IH (elapse' d h) (tick d t) Ht' ltac:(cbn; lia))
      as (-> & -> & -> & -> & -> & ->).
    cbn zeta in *. rewrite Hw, Hl, Hn, Hc, Hm.
    repeat split. f_equal. unfold tick. cbn. f_equal. lia.
Qed.
End LifecycleFacts.

(** * The claims about the hook's life *)

Section CancelFacts.
Variable getSvgAsset : Z → string → string.
Variable browser : nat → Load.

(** The render that schedules a run. *)
Lemma render_schedules vs h :
  timersOwned h → mounted h = true → vs ≠ [] →
  let h' := usePreloadTokenImages vs h in
  timers h' = [{| timeoutId := nextTimeoutId h; remaining := initialDeferral;
                  closure := vs |}] ∧
  world h' = world h ∧ log h' = log h ∧
  nextTimeoutId h' = S (nextTimeoutId h) ∧
  cleanup h' = Some (nextTimeoutId h) ∧ mounted h' = true.
Proof.
  intros Hown Hm Hvs. cbn zeta. unfold usePreloadTokenImages. rewrite Hm.
  destruct (runCleanup_clears h Hown) as (Ht & Hw & Hl & Hn & Hmm).
  unfold effect. rewrite decide_False by (by destruct vs).
  cbn. by rewrite Ht, Hw, Hl, Hn, Hmm.
Qed.

(** Cancelling: the cleanup of the effect whose one timeout is pending. *)
Lemma cancel_clears h t c :
  timers h = [t] → cleanup h = Some (timeoutId t) →
  nextTimeoutId h = S (timeoutId t) → mounted h = true →
  c = Unmount ∨ (∃ vs', c = Render vs') →
  let h1 := step getSvgAsset browser h c in
  world h1 = world h ∧ log h1 = log h ∧
  (∀ u, u ∈ timers h1 → timeoutId u ≠ timeoutId t) ∧
  timeoutId t < nextTimeoutId h1.
Proof.
  intros Ht Hc Hn Hm Hcancel. cbn zeta.
  assert (Hclean : timers (runCleanup h) = [] ∧ world (runCleanup h) = world h ∧
                   log (runCleanup h) = log h ∧
                   nextTimeoutId (runCleanup h) = nextTimeoutId h).
  { unfold runCleanup, clearTimeout. rewrite Hc, Ht.
    rewrite filter_cons, decide_False by (intros Hne; by apply Hne). done. }
  destruct Hclean as (Ht' & Hw' & Hl' & Hn').
  destruct Hcancel as [->|[vs' ->]]; cbn [step].
  - unfold unmount. cbn. rewrite Ht', Hw', Hl', Hn', Hn.
    repeat split; [|lia]. by intros u ?%elem_of_nil.
  - unfold usePreloadTokenImages. rewrite Hm.
    unfold effect. case_decide; cbn; rewrite Ht', Hw', Hl', Hn', Hn.
    + repeat split; [|lia]. by intros u ?%elem_of_nil.
    + repeat split; [|lia]. intros u ->%list_elem_of_singleton. cbn. lia.
Qed.
End CancelFacts.

Section HistoryFacts.
Variable getSvgAsset : Z → string → string.
Variable browser : nat → Load.

(** What has been shown stays shown. *)
Lemma foldl_fire_history ts : ∀ h,
  ∃ later, history (foldl (fire getSvgAsset browser) h ts) = history h ++ later.
Proof.
  induction ts as [|t ts IH]; intros h.
  - exists []. by rewrite app_nil_r.
  - cbn [foldl]. destruct (IH (fire getSvgAsset browser h t)) as [later ->].
    rewrite history_fire, <- app_assoc. eauto.
Qed.

Lemma step_history h ev :
  ∃ later, history (step getSvgAsset browser h ev) = history h ++ later.
Proof.
  destruct ev as [vs| |ms]; cbn [step].
  - exists []. rewrite app_nil_r.
    unfold usePreloadTokenImages, effect, runCleanup, clearTimeout.
    destruct (mounted h); [|done]. destruct (cleanup h); case_decide; done.
  - exists []. rewrite app_nil_r. unfold unmount, runCleanup, clearTimeout.
    by destruct (cleanup h).
  - unfold elapse. set (h0 := Build_Hook _ _ _ _ _ _).
    change (history h) with (history h0). apply foldl_fire_history.
Qed.

Lemma lifecycle_history evs : ∀ h,
  ∃ later, history (lifecycle getSvgAsset browser evs h) = history h ++ later.
Proof.
  induction evs as [|ev evs IH]; intros h.
  - exists []. by rewrite app_nil_r.
  - change (lifecycle getSvgAsset browser (ev :: evs) h)
      with (lifecycle getSvgAsset browser evs (step getSvgAsset browser h ev)).
    destruct (IH (step getSvgAsset browser h ev)) as [later ->].
    destruct (step_history h ev) as [later' ->].
    rewrite <- app_assoc. eauto.
Qed.
End HistoryFacts.

(** C7, as amended.  The set of attempted keys belongs to the hook, not to a
    run: it is empty when the hook mounts and is never emptied afterwards.
    Through any renders, unmount and passing of time, the runs of one mounted
    hook attempt no key twice and every key attempted so far is in the set;
    so what the hook does later, new runs for new inputs included, attempts
    none of the keys attempted before, whether their loads failed or not. *)
Theorem attempted_set_lives_with_the_hook getSvgAsset browser cache n evs :
  let h := lifecycle getSvgAsset browser evs (mountWith cache n) in
  preloadedSet (world (mountWith cache n)) = ∅ ∧
  NoDup (attemptedKeys (history h)) ∧
  (∀ k, k ∈ attemptedKeys (history h) → k ∈ preloadedSet (world h)) ∧
  (∀ evs', ∃ later,
     history (lifecycle getSvgAsset browser evs' h) = history h ++ later ∧
     ∀ k, k ∈ attemptedKeys (history h) → k ∉ attemptedKeys later).
Proof.
  cbn zeta.
  assert (Hinit : attemptedOnce (mountWith cache n)).
  { split; [constructor|]. by intros k ?%elem_of_nil. }
  pose proof (lifecycle_attemptedOnce getSvgAsset browser evs _ Hinit) as [Hnd Hin].
  split; [done|]. split; [done|]. split; [done|].
  intros evs'.
  destruct (lifecycle_history getSvgAsset browser evs'
              (lifecycle getSvgAsset browser evs (mountWith cache n))) as [later Hlater].
  exists later. split; [done|]. intros k Hk Hk'.
  pose proof (lifecycle_attemptedOnce getSvgAsset browser (evs ++ evs') _ Hinit) as [Hnd' _].
  rewrite lifecycle_app, Hlater, attemptedKeys_app in Hnd'.
  apply NoDup_app in Hnd' as (_ & Hdisj & _). by apply (Hdisj k).
Qed.

(** C7, as stated, fails.  A hook is mounted with one vault; its run attempts
    the key and the load fails, so nothing is cached.  The input changes and
    a new run starts: its set is not empty, it holds the key, and the run
    skips the vault at the set, before it reads the cache; only the new vault
    is attempted. *)
Lemma counterexample_attempted_set_outlives_the_run :
  let h1 := lifecycle Sample.getSvgAsset Sample.allFail
              [Render [Sample.vault "0xab"]; Elapse 100] (mountWith ∅ 0) in
  let h2 := lifecycle Sample.getSvgAsset Sample.allFail
              [Render [Sample.vault "0xab"; Sample.vault "0xcd"]; Elapse 100] h1 in
  attempts (history h1) = [(1%Z, "0xab")] ∧
  queryCache (world h1) !! queryKey 1 "0xab" = None ∧
  cacheKey 1 "0xab" ∈ preloadedSet (world h1) ∧
  log h2 = log h1 ++
    [(1, [ConsoleLog "Starting to preload 2 token images in batches of 15";
          Batch [Sample.vault "0xab"; Sample.vault "0xcd"];
          GetQueryData ("token-image", 1%Z, "0xcd");
          PrefetchQuery 1 "0xcd" "https://assets.example/1/0xcd/logo.svg";
          Settled 1 "0xab" Fulfilled;
          ImageEvent 1 "0xcd" onerror;
          ConsoleDebug "Failed to preload image for 0xcd:"
                       {| message := "Failed to load image" |};
          Settled 1 "0xcd" Fulfilled;
          ConsoleLog "Finished preloading token images"])].
Proof.
  cbn zeta. split; [by vm_compute|]. split; [by vm_compute|]. split.
  - apply (bool_decide_unpack _). by vm_compute.
  - by vm_compute.
Qed.

(** C8. A run cancelled before its deferral of 100 ms has passed never
    happens.  From any state a mounted hook can be in, a render with a
    non-empty array sets one timeout; if less than 100 ms pass and then the
    component is unmounted or rendered with another array, the timeout is
    cleared, the world and the log are what they were before the render (no
    batch, no cache read, no cache write), and whatever follows, no run is
    ever started by that timeout. *)
Theorem cancelled_before_deferral_never_runs
    getSvgAsset browser cache n evs0 vs ds c evs :
  let h0 := lifecycle getSvgAsset browser evs0 (mountWith cache n) in
  mounted h0 = true →
  vs ≠ [] →
  sum_list ds < initialDeferral →
  c = Unmount ∨ (∃ vs', c = Render vs') →
  let id := nextTimeoutId h0 in
  let scheduled := usePreloadTokenImages vs h0 in
  let h1 := lifecycle getSvgAsset browser ((Elapse <$> ds) ++ [c]) scheduled in
  initialDeferral = 100 ∧
  timers scheduled = [{| timeoutId := id; remaining := initialDeferral; closure := vs |}] ∧
  world h1 = world h0 ∧
  log h1 = log h0 ∧
  (∀ t, t ∈ timers h1 → timeoutId t ≠ id) ∧
  id ∉ (log (lifecycle getSvgAsset browser evs h1)).*1.
Proof.
  cbn zeta. intros Hm Hvs Hsum Hc.
  set (h0 := lifecycle getSvgAsset browser evs0 (mountWith cache n)) in *.
  assert (Hown : timersOwned h0)
    by apply lifecycle_timersOwned, mountWith_timersOwned.
  destruct (render_schedules vs h0 Hown Hm Hvs) as (Ht & Hw & Hl & Hn & Hcl & Hmm).
  cbn zeta in *. split; [done|]. split; [done|].
  set (t := {| timeoutId := nextTimeoutId h0; remaining := initialDeferral;
               closure := vs |}) in *.
  destruct (elapses_waiting getSvgAsset browser ds (usePreloadTokenImages vs h0) t Ht Hsum)
    as (Ht' & Hw' & Hl' & Hn' & Hcl' & Hmm'). cbn zeta in *.
  rewrite lifecycle_app.
  set (hs := lifecycle getSvgAsset browser (Elapse <$> ds) (usePreloadTokenImages vs h0)) in *.
  change (lifecycle getSvgAsset browser [c] hs) with (step getSvgAsset browser hs c).
  destruct (cancel_clears getSvgAsset browser hs (tick (sum_list ds) t) c)
    as (Hw1 & Hl1 & Ht1 & Hn1); try done.
  { by rewrite Hcl', Hcl. }
  { by rewrite Hn', Hn. }
  { by rewrite Hmm'. }
  cbn zeta in *. cbn [tick timeoutId t] in *.
  split; [by rewrite Hw1, Hw', Hw|]. split; [by rewrite Hl1, Hl', Hl|].
  split; [done|].
  apply (lifecycle_cancelled getSvgAsset browser (nextTimeoutId h0) evs).
  split; [done|]. split; [done|].
  rewrite Hl1, Hl', Hl. intros Hin. destruct Hown as (_ & _ & Hlog).
  apply Hlog in Hin. lia.
Qed.

Lemma cancelled_before_deferral_never_runs_witness :
  mounted (mountWith ∅ 0) = true ∧
  sum_list [40; 59] < initialDeferral ∧
  0 ∉ (log (lifecycle Sample.getSvgAsset Sample.allLoad [Elapse 1000]
              (lifecycle Sample.getSvgAsset Sample.allLoad
                 ((Elapse <$> [40; 59]) ++ [Unmount])
                 (usePreloadTokenImages [Sample.vault "0xab"] (mountWith ∅ 0))))).*1.
Proof.
  split; [reflexivity|]. split; [vm_compute; lia|].
  apply (cancelled_before_deferral_never_runs Sample.getSvgAsset Sample.allLoad
           ∅ 0 [] [Sample.vault "0xab"] [40; 59] Unmount [Elapse 1000]).
  - reflexivity.
  - discriminate.
  - vm_compute; lia.
  - left; reflexivity.
Defined.

(** C5, as stated, fails on a falsy value: with the empty string cached under
    the key, the key has a value and the load is attempted all the same. *)
Lemma counterexample_cached_empty_string_is_loaded :
  let w := Sample.worldWith [Sample.vault "0xab"] Sample.emptyStringCached in
  queryCache w !! queryKey 1 "0xab" = Some (DString "") ∧
  attempts (trace (preloadImage Sample.getSvgAsset Sample.allLoad 1 "0xab" w))
    = [(1%Z, "0xab")] ∧
  attempts (trace (preloadInBatches Sample.getSvgAsset Sample.allLoad w))
    = [(1%Z, "0xab")].
Proof. cbn zeta. split; [by vm_compute|]. split; by vm_compute. Qed.

Lemma cached_reference_is_not_loaded_witness :
  let w := Sample.worldWith [Sample.vault "0xab"] Sample.urlCached in
  truthy (queryCache w !! queryKey 1 "0xab") = true ∧
  attempts (trace (preloadImage Sample.getSvgAsset Sample.allLoad 1 "0xab" w)) = [].
Proof.
  cbn zeta. split; [vm_compute; reflexivity|].
  apply (cached_reference_is_not_loaded Sample.getSvgAsset Sample.allLoad 1 "0xab"
           (Sample.worldWith [Sample.vault "0xab"] Sample.urlCached)).
  vm_compute; reflexivity.
Defined.

Lemma case_variants_share_one_attempt_witness :
  sameUpToCase "0xAB" "0xab" ∧
  cacheKey 1 "0xAB" = cacheKey 1 "0xab" ∧
  length (filter (λ it, it = (1%Z, "0xAB") ∨ it = (1%Z, "0xab"))
            (attempts (trace (preloadInBatches Sample.getSvgAsset Sample.allLoad
               (Sample.worldWith [Sample.vault "0xAB"; Sample.vault "0xab"] ∅))))) ≤ 1.
Proof.
  assert (H : sameUpToCase "0xAB" "0xab").
  { apply sameUpToCase_cons; [left; reflexivity|].
    apply sameUpToCase_cons; [left; reflexivity|].
    apply sameUpToCase_cons; [right; left; split; reflexivity|].
    apply sameUpToCase_cons; [right; left; split; reflexivity|].
    apply sameUpToCase_nil. }
  split; [exact H|].
  destruct (case_variants_share_one_attempt Sample.getSvgAsset Sample.allLoad
              (Sample.worldWith [Sample.vault "0xAB"; Sample.vault "0xab"] ∅)
              1 "0xAB" "0xab" H) as (Hk & _ & Hone).
  split; [exact Hk|exact Hone].
Defined.


(** * Further properties of a run *)

(** The two keys of a reference go together: the key of the set is made of
    the parts of the key of the cache. *)
Lemma queryKey_keyOf it it' :
  queryKey it.1 it.2 = queryKey it'.1 it'.2 → keyOf it = keyOf it'.
Proof.
  unfold queryKey, keyOf, cacheKey. intros [= Hc Ha]. by rewrite Hc, Ha.
Qed.

Lemma attempts_requests tr : attempts tr = (λ x, x.1) <$> requests tr.
Proof.
  unfold attempts, requests. induction tr as [|e tr IH]; [done|].
  destruct e; cbn; try done. by rewrite IH.
Qed.

Lemma requests_app t1 t2 : requests (t1 ++ t2) = requests t1 ++ requests t2.
Proof. apply omap_app. Qed.

Lemma requests_nil tr : attempts tr = [] → requests tr = [].
Proof. rewrite attempts_requests. apply fmap_nil_inv. Qed.

Lemma attemptedKeys_elem tr it : it ∈ attempts tr → keyOf it ∈ attemptedKeys tr.
Proof. intros. by apply list_elem_of_fmap_2. Qed.

(** ** Every reference is looked after *)

Lemma mapM_preloadImage_covers getSvgAsset browser batch : ∀ w v,
  v ∈ batch →
  settledIn w (item v) ∨
  keyOf (item v) ∈ attemptedKeys
    (trace (mapM (λ vault, preloadImage getSvgAsset browser
                             (chainId vault) (address (asset vault))) batch w)).
Proof.
  induction batch as [|u batch IH]; intros w v Hv; [by apply elem_of_nil in Hv|].
  set (call := λ vault, preloadImage getSvgAsset browser
                          (chainId vault) (address (asset vault))).
  destruct (mapM_preloadImage getSvgAsset browser batch (final (call u w)))
    as (acts & Ho & _). cbn zeta in Ho. fold call in Ho.
  destruct (preloadImage_cases getSvgAsset browser (chainId u) (address (asset u)) w)
    as [(Ho1 & Hf1 & _ & _ & Hwhy)
       |(p & Ho1 & _ & _ & _ & _ & _ & Ht1 & _ & Hq1 & _ & Hset1 & _)];
    cbn zeta in *.
  - destruct (mapM_cons_run call u batch w _ acts Ho1 Ho) as (_ & _ & Et).
    fold call. rewrite Et, attemptedKeys_app.
    apply elem_of_cons in Hv as [->|Hv]; [by left|].
    destruct (IH (final (call u w)) v Hv) as [Hs|Hk].
    + left. unfold call in Hs. by rewrite Hf1 in Hs.
    + right. apply elem_of_app. by right.
  - destruct (mapM_cons_run call u batch w _ acts Ho1 Ho) as (_ & _ & Et).
    fold call. rewrite Et, attemptedKeys_app.
    assert (Hhead : keyOf (item u) ∈ attemptedKeys (trace (call u w))).
    { unfold call. rewrite Ht1. cbn. set_solver. }
    apply elem_of_cons in Hv as [->|Hv]; [right; apply elem_of_app; by left|].
    destruct (IH (final (call u w)) v Hv) as [[Hs|Hs]|Hk].
    + unfold call in Hs. rewrite Hset1 in Hs.
      apply elem_of_union in Hs as [Hs|Hs].
      * apply elem_of_singleton in Hs. right. apply elem_of_app. left.
        rewrite Hs. exact Hhead.
      * left. by left.
    + left. right. unfold call in Hs. by rewrite Hq1 in Hs.
    + right. apply elem_of_app. by right.
Qed.

Lemma preloadBatch_attempts getSvgAsset browser batch w :
  attempts (trace (preloadBatch getSvgAsset browser batch w))
  = attempts (trace (mapM (λ vault, preloadImage getSvgAsset browser
                                      (chainId vault) (address (asset vault))) batch w)).
Proof.
  destruct (preloadBatch_run getSvgAsset browser batch w) as (acts & _ & _ & -> & _).
  cbn [attempts omap list_omap]. change (omap ?f ?l) with (attempts l).
  by rewrite attempts_app, settled_attempts, app_nil_r.
Qed.

Lemma preloadBatch_covers getSvgAsset browser batch w v :
  v ∈ batch →
  settledIn w (item v) ∨
  keyOf (item v) ∈ attemptedKeys (trace (preloadBatch getSvgAsset browser batch w)).
Proof.
  intros Hv. unfold attemptedKeys. rewrite preloadBatch_attempts.
  by apply mapM_preloadImage_covers.
Qed.

(** What was settled stays settled, or its key is attempted meanwhile. *)
Lemma Sound_settledIn getSvgAsset w its w' it :
  Sound getSvgAsset w its w' → settledIn w it →
  keyOf it ∈ preloadedSet w' ∨
  (truthy (queryCache w' !! queryKey it.1 it.2) = true ∧
   queryCache w' !! queryKey it.1 it.2 = queryCache w !! queryKey it.1 it.2).
Proof.
  intros (_ & _ & _ & Hset & Hc) [Hs|Hs].
  - left. rewrite Hset. set_solver.
  - destruct (Hc (queryKey it.1 it.2)) as [Heq|(it' & Hin & Hk & _)].
    + right. by rewrite Heq.
    + left. rewrite Hset, (queryKey_keyOf it it') by done.
      apply elem_of_union. left. apply elem_of_list_to_set.
      by apply list_elem_of_fmap_2.
Qed.

Lemma Sound_covered getSvgAsset w its w' it :
  Sound getSvgAsset w its w' → settledIn w' it →
  settledIn w it ∨ keyOf it ∈ keyOf <$> its.
Proof.
  intros (_ & _ & _ & Hset & Hc) [Hs|Hs].
  - rewrite Hset in Hs. apply elem_of_union in Hs as [Hs|Hs].
    + right. by apply elem_of_list_to_set in Hs.
    + left. by left.
  - destruct (Hc (queryKey it.1 it.2)) as [Heq|(it' & Hin & Hk & _)].
    + left. right. by rewrite <- Heq.
    + right. rewrite (queryKey_keyOf it it') by done. by apply list_elem_of_fmap_2.
Qed.

Lemma loop_covers getSvgAsset browser fuel : ∀ i w v,
  length (vaults w) - i ≤ fuel →
  v ∈ drop i (vaults w) →
  settledIn w (item v) ∨
  keyOf (item v) ∈ attemptedKeys (trace (loop getSvgAsset browser fuel i w)).
Proof.
  induction fuel as [|fuel IH]; intros i w v Hf Hv;
    destruct (decide (i < length (vaults w))) as [Hi|Hi]; try lia.
  - rewrite drop_ge in Hv by lia. by apply elem_of_nil in Hv.
  - destruct (loop_step getSvgAsset browser fuel i w Hi) as (_ & _ & ->).
    set (batch := slice i (i + batchSize) (vaults w)).
    pose proof (preloadBatch_Sound getSvgAsset browser batch w) as HS.
    cbn zeta in HS. pose proof HS as (Hvs & _).
    rewrite !attemptedKeys_app.
    rewrite <- (take_drop batchSize (drop i (vaults w))) in Hv.
    rewrite drop_drop in Hv.
    apply elem_of_app in Hv as [Hv|Hv].
    + destruct (preloadBatch_covers getSvgAsset browser batch w v) as [Hs|Hk].
      { unfold batch, slice. by replace (i + batchSize - i) with batchSize by lia. }
      * by left.
      * right. apply elem_of_app. by left.
    + destruct (IH (i + batchSize) (final (preloadBatch getSvgAsset browser batch w)) v)
        as [Hs|Hk].
      { rewrite Hvs. unfold batchSize. lia. }
      { by rewrite Hvs. }
      * destruct (Sound_covered _ _ _ _ _ HS Hs) as [Hs'|Hk]; [by left|].
        right. apply elem_of_app. by left.
      * right. apply elem_of_app. right. apply elem_of_app. by right.
  - rewrite drop_ge in Hv by lia. by apply elem_of_nil in Hv.
Qed.

Lemma preloadInBatches_covers getSvgAsset browser w v :
  v ∈ vaults w →
  settledIn w (item v) ∨
  keyOf (item v) ∈ attemptedKeys (trace (preloadInBatches getSvgAsset browser w)).
Proof.
  intros Hv.
  destruct (preloadInBatches_run getSvgAsset browser w) as (_ & _ & ->).
  destruct (loop_covers getSvgAsset browser (length (vaults w)) 0 w v) as [Hs|Hk];
    [lia|by rewrite drop_0|by left|].
  right. unfold attemptedKeys in *.
  cbn [attempts omap list_omap]. change (omap ?f ?l) with (attempts l).
  rewrite attempts_app, fmap_app. apply elem_of_app. by left.
Qed.

(** X1. No reference of the input is passed over: each vault of the array
    has its key marked beforehand, or a truthy value in the cache beforehand,
    or its key among the load attempts of the run. *)
Theorem every_reference_is_settled_or_attempted getSvgAsset browser w v :
  v ∈ vaults w →
  let r := preloadInBatches getSvgAsset browser w in
  cacheKey (chainId v) (address (asset v)) ∈ preloadedSet w ∨
  truthy (queryCache w !! queryKey (chainId v) (address (asset v))) = true ∨
  cacheKey (chainId v) (address (asset v)) ∈ attemptedKeys (trace r).
Proof.
  intros Hv. cbn zeta.
  destruct (preloadInBatches_covers getSvgAsset browser w v Hv) as [[Hs|Hs]|Hk];
    [by left|by right; left|by right; right].
Qed.

Lemma every_reference_is_settled_or_attempted_witness :
  let w := Sample.worldWith [Sample.vault "0xAB"; Sample.vault "0xab"] ∅ in
  Sample.vault "0xab" ∈ vaults w ∧
  cacheKey 1 "0xab" ∈ attemptedKeys
    (trace (preloadInBatches Sample.getSvgAsset Sample.allFail w)).
Proof.
  cbn zeta.
  assert (Hv : Sample.vault "0xab"
                 ∈ vaults (Sample.worldWith [Sample.vault "0xAB"; Sample.vault "0xab"] ∅)).
  { apply list_elem_of_further, list_elem_of_here. }
  split; [exact Hv|].
  destruct (every_reference_is_settled_or_attempted Sample.getSvgAsset Sample.allFail
              _ _ Hv) as [Hs|[Hs|Hk]].
  - by apply not_elem_of_empty in Hs.
  - discriminate Hs.
  - exact Hk.
Defined.

(** ** Nothing to do *)

Lemma settledIn_same w w' it :
  preloadedSet w' = preloadedSet w → queryCache w' = queryCache w →
  settledIn w it → settledIn w' it.
Proof. unfold settledIn. by intros -> ->. Qed.

Lemma Sound_nil getSvgAsset w w' :
  Sound getSvgAsset w [] w' →
  vaults w' = vaults w ∧ preloadedSet w' = preloadedSet w ∧ queryCache w' = queryCache w.
Proof.
  intros (Hv & _ & _ & Hset & Hc). split; [done|]. split.
  - rewrite Hset. cbn. set_solver.
  - apply map_eq. intros k. destruct (Hc k) as [Heq|(it & Hin & _)]; [done|].
    by apply elem_of_nil in Hin.
Qed.

Lemma mapM_preloadImage_quiet getSvgAsset browser batch : ∀ w,
  (∀ v, v ∈ batch → settledIn w (item v)) →
  attempts (trace (mapM (λ vault, preloadImage getSvgAsset browser
                                    (chainId vault) (address (asset vault))) batch w)) = [].
Proof.
  induction batch as [|u batch IH]; intros w Hall; [done|].
  set (call := λ vault, preloadImage getSvgAsset browser
                          (chainId vault) (address (asset vault))).
  destruct (mapM_preloadImage getSvgAsset browser batch (final (call u w)))
    as (acts & Ho & _). cbn zeta in Ho. fold call in Ho.
  destruct (preloadImage_cases getSvgAsset browser (chainId u) (address (asset u)) w)
    as [(Ho1 & Hf1 & Ha1 & _)
       |(p & _ & _ & _ & _ & _ & _ & _ & _ & _ & _ & _ & Hnin & Hfalse)];
    cbn zeta in *.
  - destruct (mapM_cons_run call u batch w _ acts Ho1 Ho) as (_ & _ & Et).
    fold call. rewrite Et, attempts_app. unfold call at 1. rewrite Ha1. cbn [app].
    unfold call at 2. rewrite Hf1. apply IH. intros v Hv. apply Hall. by right.
  - destruct (Hall u ltac:(by left)) as [Hs|Hs]; [done|].
    cbn in Hs. congruence.
Qed.

Lemma loop_quiet getSvgAsset browser fuel : ∀ i w,
  (∀ v, v ∈ drop i (vaults w) → settledIn w (item v)) →
  attempts (trace (loop getSvgAsset browser fuel i w)) = [].
Proof.
  induction fuel as [|fuel IH]; intros i w Hall;
    destruct (decide (i < length (vaults w))) as [Hi|Hi].
  - by destruct (loop_out getSvgAsset browser i w Hi) as (_ & _ & ->).
  - by destruct (loop_done getSvgAsset browser 0 i w Hi) as (_ & _ & ->).
  - destruct (loop_step getSvgAsset browser fuel i w Hi) as (_ & _ & ->).
    set (batch := slice i (i + batchSize) (vaults w)).
    assert (Hb : attempts (trace (preloadBatch getSvgAsset browser batch w)) = []).
    { rewrite preloadBatch_attempts. apply mapM_preloadImage_quiet.
      intros v Hv. apply Hall. unfold batch, slice in Hv.
      rewrite <- (take_drop (i + batchSize - i) (drop i (vaults w))).
      apply elem_of_app. by left. }
    pose proof (preloadBatch_Sound getSvgAsset browser batch w) as HS.
    cbn zeta in HS. rewrite Hb in HS. apply Sound_nil in HS as (Hv & Hset & Hc).
    rewrite !attempts_app, Hb. cbn [app].
    replace (attempts (if decide (i + batchSize < length (vaults w))
                       then [SetTimeout delay] else [])) with (@nil (Z * string))
      by by case_decide.
    cbn [app]. apply IH. intros v Hin. rewrite Hv in Hin.
    apply (settledIn_same w); [done|done|]. apply Hall.
    rewrite <- (take_drop batchSize (drop i (vaults w))), drop_drop.
    apply elem_of_app. by right.
  - by destruct (loop_done getSvgAsset browser (S fuel) i w Hi) as (_ & _ & ->).
Qed.

Lemma preloadInBatches_quiet getSvgAsset browser w :
  (∀ v, v ∈ vaults w → settledIn w (item v)) →
  attempts (trace (preloadInBatches getSvgAsset browser w)) = [] ∧
  preloadedSet (final (preloadInBatches getSvgAsset browser w)) = preloadedSet w ∧
  queryCache (final (preloadInBatches getSvgAsset browser w)) = queryCache w.
Proof.
  intros Hall.
  assert (Ha : attempts (trace (preloadInBatches getSvgAsset browser w)) = []).
  { destruct (preloadInBatches_run getSvgAsset browser w) as (_ & _ & ->).
    cbn [attempts omap list_omap]. change (omap ?f ?l) with (attempts l).
    rewrite attempts_app, loop_quiet; [done|]. intros v Hv. apply Hall.
    by rewrite drop_0 in Hv. }
  split; [done|].
  pose proof (preloadInBatches_Sound getSvgAsset browser w) as HS.
  rewrite Ha in HS. by apply Sound_nil in HS as (_ & Hset & Hc).
Qed.

(** X2. A run over an array whose every reference is already marked or
    already cached with a truthy value requests no image and leaves the set
    of attempted keys and the shared cache exactly as they were. *)
Theorem settled_input_requests_nothing getSvgAsset browser w :
  (∀ v, v ∈ vaults w →
        cacheKey (chainId v) (address (asset v)) ∈ preloadedSet w ∨
        truthy (queryCache w !! queryKey (chainId v) (address (asset v))) = true) →
  let r := preloadInBatches getSvgAsset browser w in
  attempts (trace r) = [] ∧
  preloadedSet (final r) = preloadedSet w ∧
  queryCache (final r) = queryCache w.
Proof. intros Hall. by apply preloadInBatches_quiet. Qed.

Lemma settled_input_requests_nothing_witness :
  let w := Sample.worldWith [Sample.vault "0xab"; Sample.vault "0xAB"] Sample.urlCached in
  attempts (trace (preloadInBatches Sample.getSvgAsset Sample.allLoad w)) = [].
Proof.
  cbn zeta.
  apply (settled_input_requests_nothing Sample.getSvgAsset Sample.allLoad
           (Sample.worldWith [Sample.vault "0xab"; Sample.vault "0xAB"] Sample.urlCached)).
  intros v Hv. right.
  apply elem_of_cons in Hv as [->|Hv]; [vm_compute; reflexivity|].
  apply elem_of_cons in Hv as [->|Hv]; [vm_compute; reflexivity|].
  by apply elem_of_nil in Hv.
Defined.

(** X3. Running the scheduler again where a run has left off, over the same
    array, requests no image and changes nothing: whatever the first run
    attempted is marked, and whatever it skipped is still cached. *)
Theorem second_run_requests_nothing getSvgAsset browser browser' w :
  let r1 := preloadInBatches getSvgAsset browser w in
  let r2 := preloadInBatches getSvgAsset browser' (final r1) in
  attempts (trace r2) = [] ∧
  preloadedSet (final r2) = preloadedSet (final r1) ∧
  queryCache (final r2) = queryCache (final r1).
Proof.
  cbn zeta. apply preloadInBatches_quiet.
  pose proof (preloadInBatches_Sound getSvgAsset browser w) as HS.
  pose proof HS as (Hv & _ & _ & Hset & _).
  intros v Hin. rewrite Hv in Hin.
  destruct (preloadInBatches_covers getSvgAsset browser w v Hin) as [Hs|Hk].
  - destruct (Sound_settledIn _ _ _ _ _ HS Hs) as [Hm|[Ht _]]; [by left|by right].
  - left. rewrite Hset. apply elem_of_union. left. by apply elem_of_list_to_set.
Qed.

(** ** Requests follow the input *)

Lemma mapM_preloadImage_requests getSvgAsset browser batch : ∀ w,
  requests (trace (mapM (λ vault, preloadImage getSvgAsset browser
                                    (chainId vault) (address (asset vault))) batch w))
    `sublist_of` requestOf getSvgAsset <$> batch.
Proof.
  induction batch as [|u batch IH]; intros w; [done|].
  set (call := λ vault, preloadImage getSvgAsset browser
                          (chainId vault) (address (asset vault))).
  destruct (mapM_preloadImage getSvgAsset browser batch (final (call u w)))
    as (acts & Ho & _). cbn zeta in Ho. fold call in Ho.
  destruct (preloadImage_cases getSvgAsset browser (chainId u) (address (asset u)) w)
    as [(Ho1 & _ & Ha1 & _)|(p & Ho1 & _ & _ & _ & _ & _ & Ht1 & _)];
    cbn zeta in *;
    destruct (mapM_cons_run call u batch w _ acts Ho1 Ho) as (_ & _ & Et);
    fold call; rewrite Et, requests_app; cbn [fmap list_fmap].
  - unfold call at 1. rewrite (requests_nil _ Ha1). cbn [app].
    apply sublist_cons, IH.
  - unfold call at 1. rewrite Ht1. cbn [requests omap list_omap app].
    apply sublist_skip, IH.
Qed.

Lemma preloadBatch_requests getSvgAsset browser batch w :
  requests (trace (preloadBatch getSvgAsset browser batch w))
    `sublist_of` requestOf getSvgAsset <$> batch.
Proof.
  destruct (preloadBatch_run getSvgAsset browser batch w) as (acts & _ & _ & -> & _).
  cbn [requests omap list_omap]. change (omap ?f ?l) with (requests l).
  rewrite requests_app, (requests_nil _ (settled_attempts _)), app_nil_r.
  apply mapM_preloadImage_requests.
Qed.

Lemma loop_requests getSvgAsset browser fuel : ∀ i w,
  requests (trace (loop getSvgAsset browser fuel i w))
    `sublist_of` requestOf getSvgAsset <$> drop i (vaults w).
Proof.
  induction fuel as [|fuel IH]; intros i w;
    destruct (decide (i < length (vaults w))) as [Hi|Hi].
  - destruct (loop_out getSvgAsset browser i w Hi) as (_ & _ & ->). apply sublist_nil_l.
  - destruct (loop_done getSvgAsset browser 0 i w Hi) as (_ & _ & ->). apply sublist_nil_l.
  - destruct (loop_step getSvgAsset browser fuel i w Hi) as (_ & _ & ->).
    set (batch := slice i (i + batchSize) (vaults w)).
    destruct (preloadBatch_Sound getSvgAsset browser batch w) as (Hv & _).
    rewrite !requests_app.
    replace (requests (if decide (i + batchSize < length (vaults w))
                       then [SetTimeout delay] else []))
      with (@nil (Z * string * string)) by by case_decide.
    cbn [app].
    rewrite <- (take_drop batchSize (drop i (vaults w))), drop_drop, fmap_app.
    apply sublist_app.
    + unfold batch, slice. replace (i + batchSize - i) with batchSize by lia.
      apply preloadBatch_requests.
    + rewrite <- Hv. apply IH.
  - destruct (loop_done getSvgAsset browser (S fuel) i w Hi) as (_ & _ & ->).
    apply sublist_nil_l.
Qed.

(** X4. The image requests of a run follow the input: read in order, they
    are a subsequence of the array, each one the request of a vault of the
    array with the URL that [getSvgAsset] gives for its chain id and its
    address as written; so are the load attempts. *)
Theorem requests_follow_the_input getSvgAsset browser w :
  let r := preloadInBatches getSvgAsset browser w in
  requests (trace r) `sublist_of` requestOf getSvgAsset <$> vaults w ∧
  attempts (trace r) `sublist_of` item <$> vaults w.
Proof.
  cbn zeta.
  assert (H : requests (trace (preloadInBatches getSvgAsset browser w))
                `sublist_of` requestOf getSvgAsset <$> vaults w).
  { destruct (preloadInBatches_run getSvgAsset browser w) as (_ & _ & ->).
    cbn [requests omap list_omap]. change (omap ?f ?l) with (requests l).
    rewrite requests_app. cbn [requests omap list_omap]. rewrite app_nil_r.
    rewrite <- (drop_0 (vaults w)) at 2. apply loop_requests. }
  split; [done|].
  rewrite attempts_requests.
  replace (item <$> vaults w) with ((λ x : Z * string * string, x.1)
                                      <$> (requestOf getSvgAsset <$> vaults w)).
  - by apply fmap_sublist.
  - rewrite <- list_fmap_compose. done.
Qed.

(** ** What a run leaves in the cache *)

Lemma NoDup_fmap_coarser {A B C} (f : A → B) (g : A → C) (l : list A) :
  (∀ x y, f x = f y → g x = g y) → NoDup (g <$> l) → NoDup (f <$> l).
Proof.
  intros Hfg. induction l as [|x l IH]; cbn; [constructor|].
  intros [Hx Hnd]%NoDup_cons. constructor; [|by apply IH].
  intros (y & Hy & Hin)%list_elem_of_fmap. apply Hx.
  rewrite (Hfg x y Hy). by apply list_elem_of_fmap_2.
Qed.

Lemma pendingKeys_items getSvgAsset acts :
  Forall (wellFormed getSvgAsset) acts →
  pendingKeys acts = (λ it, queryKey it.1 it.2) <$> pendingItems acts.
Proof.
  induction 1 as [|a acts Ha _ IH]; [done|].
  destruct a as [c d|p]; cbn; [exact IH|].
  destruct Ha as [Hk _]. rewrite Hk. f_equal. exact IH.
Qed.

Lemma pendingKeys_perm l l' : l ≡ₚ l' → pendingKeys l ≡ₚ pendingKeys l'.
Proof. intros H. unfold pendingKeys. by rewrite H. Qed.

Lemma settleCache_other m l k :
  k ∉ pendingKeys l → foldl settleCache m l !! k = m !! k.
Proof.
  intros Hk. destruct (settled_cache l m k) as [Heq|(p & Hp & Hq & _)]; [done|].
  destruct Hk. apply list_elem_of_omap. exists (Suspended p). by rewrite Hq.
Qed.

Lemma settleCache_pending l : ∀ m p,
  NoDup (pendingKeys l) → Suspended p ∈ l →
  foldl settleCache m l !! p_queryKey p =
    match signal (p_load p) with
    | onload => Some (DString (p_imageUrl p))
    | onerror => m !! p_queryKey p
    end.
Proof.
  induction l as [|a l IH]; intros m p Hnd Hp; [by apply elem_of_nil in Hp|].
  cbn [foldl]. apply elem_of_cons in Hp as [<-|Hp].
  - cbn in Hnd. apply NoDup_cons in Hnd as [Hk _].
    rewrite settleCache_other by done. cbn.
    destruct (signal (p_load p)); [by rewrite lookup_insert_eq|done].
  - destruct a as [c d|q]; [by apply IH|].
    cbn in Hnd. apply NoDup_cons in Hnd as [Hk Hnd].
    rewrite IH by done. destruct (signal (p_load p)); [done|].
    cbn. destruct (signal (p_load q)); [|done].
    apply lookup_insert_ne. intros Heq. apply Hk. rewrite Heq.
    apply list_elem_of_omap. by exists (Suspended p).
Qed.

Lemma settleTrace_image a c d s :
  ImageEvent c d s ∈ settleTrace a →
  ∃ p, a = Suspended p ∧ p_chainId p = c ∧ p_address p = d ∧ signal (p_load p) = s.
Proof.
  destruct a as [c' d'|p]; cbn.
  - by intros ?%list_elem_of_singleton.
  - intros [He|He]%elem_of_cons.
    + injection He as -> -> ->. eauto.
    + destruct (signal (p_load p)); cbn in He;
        repeat (apply elem_of_cons in He as [He|He]; [done|]);
        by apply elem_of_nil in He.
Qed.

(** A batch: an image's signal comes from an attempt of the batch, and
    decides what the cache holds under the call's key. *)
Lemma preloadBatch_cached getSvgAsset browser batch w c a s :
  let r := preloadBatch getSvgAsset browser batch w in
  ImageEvent c a s ∈ trace r →
  (c, a) ∈ attempts (trace r) ∧
  queryCache (final r) !! queryKey c a = cachedAfter getSvgAsset (queryCache w) c a s.
Proof.
  cbn zeta. intros He. rewrite preloadBatch_attempts.
  destruct (preloadBatch_run getSvgAsset browser batch w)
    as (acts & Ho & _ & Ht & _ & _ & _ & Hq). cbn zeta in *.
  destruct (mapM_preloadImage getSvgAsset browser batch w)
    as (acts' & Ho' & _ & Hwf & Hat & Hsy & _ & _ & _ & _ & Hnd & _).
  cbn zeta in *. assert (acts' = acts) as -> by congruence.
  rewrite Ht in He. apply elem_of_cons in He as [He|He]; [done|].
  apply elem_of_app in He as [He|He].
  { rewrite Forall_forall in Hsy. by apply Hsy in He. }
  apply elem_of_concat in He as (tr & He & Htr).
  apply list_elem_of_fmap in Htr as (act & -> & Hact).
  apply settleTrace_image in He as (p & -> & <- & <- & <-).
  pose proof Hact as Hin. rewrite settleOrder_perm in Hin.
  rewrite Forall_forall in Hwf. destruct (Hwf _ Hin) as [Hk Hu].
  split.
  - rewrite Hat. apply list_elem_of_omap. by exists (Suspended p).
  - rewrite Hq, <- Hk, settleCache_pending; [|
      |exact Hact].
    + unfold cachedAfter. rewrite Hu, Hk. done.
    + rewrite (pendingKeys_perm _ _ (settleOrder_perm acts)).
      rewrite (pendingKeys_items getSvgAsset) by (by apply Forall_forall).
      apply (NoDup_fmap_coarser _ keyOf); [apply queryKey_keyOf|].
      unfold attemptedKeys in Hnd. by rewrite Hat in Hnd.
Qed.

Lemma loop_cached getSvgAsset browser fuel : ∀ i w c a s,
  ImageEvent c a s ∈ trace (loop getSvgAsset browser fuel i w) →
  (c, a) ∈ attempts (trace (loop getSvgAsset browser fuel i w)) ∧
  queryCache (final (loop getSvgAsset browser fuel i w)) !! queryKey c a
    = cachedAfter getSvgAsset (queryCache w) c a s.
Proof.
  induction fuel as [|fuel IH]; intros i w c a s;
    destruct (decide (i < length (vaults w))) as [Hi|Hi].
  - destruct (loop_out getSvgAsset browser i w Hi) as (_ & _ & ->).
    by intros ?%elem_of_nil.
  - destruct (loop_done getSvgAsset browser 0 i w Hi) as (_ & _ & ->).
    by intros ?%elem_of_nil.
  - destruct (loop_step getSvgAsset browser fuel i w Hi) as (_ & -> & ->).
    set (batch := slice i (i + batchSize) (vaults w)).
    set (r1 := preloadBatch getSvgAsset browser batch w).
    set (r2 := loop getSvgAsset browser fuel (i + batchSize) (final r1)).
    pose proof (preloadBatch_Sound getSvgAsset browser batch w) as HS1.
    pose proof (loop_Sound getSvgAsset browser fuel (i + batchSize) (final r1)) as HS2.
    cbn zeta in HS1. fold r1 in HS1. fold r2 in HS2.
    destruct HS1 as (_ & _ & _ & Hset1 & Hc1).
    destruct HS2 as (_ & _ & Hfr2 & _ & Hc2).
    rewrite !attempts_app.
    intros [He|[He|He]%elem_of_app]%elem_of_app.
    + destruct (preloadBatch_cached getSvgAsset browser batch w c a s He) as [Hin Hq].
      fold r1 in Hin, Hq. split; [apply elem_of_app; by left|].
      destruct (Hc2 (queryKey c a)) as [Heq|(it & Hit & Hk & _)]; [by rewrite Heq|].
      exfalso. apply (Hfr2 (keyOf it)); [by apply list_elem_of_fmap_2|].
      rewrite Hset1, (queryKey_keyOf it (c, a)) by done.
      apply elem_of_union. left. apply elem_of_list_to_set.
      by apply (list_elem_of_fmap_2 keyOf _ (c, a)).
    + exfalso. case_decide; [|by apply elem_of_nil in He].
      by apply list_elem_of_singleton in He.
    + destruct (IH _ _ _ _ _ He) as [Hin Hq]. fold r2 in Hin, Hq.
      split; [apply elem_of_app; right; apply elem_of_app; by right|].
      rewrite Hq. destruct s; [done|]. cbn.
      destruct (Hc1 (queryKey c a)) as [Heq|(it & Hit & Hk & _)]; [done|].
      exfalso. apply (Hfr2 (keyOf (c, a))); [by apply list_elem_of_fmap_2|].
      rewrite Hset1, <- (queryKey_keyOf it (c, a)) by done.
      apply elem_of_union. left. apply elem_of_list_to_set.
      by apply list_elem_of_fmap_2.
  - destruct (loop_done getSvgAsset browser (S fuel) i w Hi) as (_ & _ & ->).
    by intros ?%elem_of_nil.
Qed.

(** X5. What a run leaves in the cache for the images it requested: when a
    run ends, the key of a call whose image loaded holds the image URL, and
    the key of a call whose image failed holds what it held before the run. *)
Theorem loaded_images_are_cached getSvgAsset browser w c a s :
  let r := preloadInBatches getSvgAsset browser w in
  ImageEvent c a s ∈ trace r →
  (c, a) ∈ attempts (trace r) ∧
  queryCache (final r) !! queryKey c a =
    match s with
    | onload => Some (DString (getSvgAsset c a))
    | onerror => queryCache w !! queryKey c a
    end.
Proof.
  cbn zeta. destruct (preloadInBatches_run getSvgAsset browser w) as (_ & -> & ->).
  intros [He|[He|He]%elem_of_app]%elem_of_cons; [done| |].
  - destruct (loop_cached getSvgAsset browser _ _ _ _ _ _ He) as [Hin Hq].
    split; [|exact Hq].
    cbn [attempts omap list_omap]. change (omap ?f ?l) with (attempts l).
    rewrite attempts_app. apply elem_of_app. by left.
  - by apply list_elem_of_singleton in He.
Qed.

Lemma loaded_images_are_cached_witness :
  let w := Sample.worldWith [Sample.vault "0xab"] ∅ in
  let r := preloadInBatches Sample.getSvgAsset Sample.allLoad w in
  ImageEvent 1 "0xab" onload ∈ trace r ∧
  queryCache (final r) !! queryKey 1 "0xab"
    = Some (DString (Sample.getSvgAsset 1 "0xab")).
Proof.
  cbn zeta.
  assert (He : ImageEvent 1 "0xab" onload
                 ∈ trace (preloadInBatches Sample.getSvgAsset Sample.allLoad
                            (Sample.worldWith [Sample.vault "0xab"] ∅))).
  { apply (bool_decide_unpack _). vm_compute. exact I. }
  split; [exact He|].
  apply (loaded_images_are_cached Sample.getSvgAsset Sample.allLoad
           (Sample.worldWith [Sample.vault "0xab"] ∅) 1 "0xab" onload He).
Defined.

(** * The two keys of a reference *)

Lemma isDigit_not_dash c : isDigit c → c ≠ "-"%char.
Proof. intros [H1 H2] ->. cbn in H1. lia. Qed.

Lemma pretty_N_char_digit x : isDigit (pretty_N_char x).
Proof. unfold pretty_N_char, isDigit. repeat case_match; cbn; lia. Qed.

Lemma pretty_N_go_digits x : ∀ s, allDigits s → allDigits (pretty_N_go x s).
Proof.
  induction (N.lt_wf_0 x) as [x _ IH]; intros s Hs.
  assert (x = 0 ∨ 0 < x)%N as [->|Hx] by lia; [by rewrite pretty_N_go_0|].
  rewrite pretty_N_go_step by done. apply IH.
  - by apply N.div_lt.
  - split; [apply pretty_N_char_digit|done].
Qed.

Lemma pretty_N_go_length x : ∀ s, String.length s ≤ String.length (pretty_N_go x s).
Proof.
  induction (N.lt_wf_0 x) as [x _ IH]; intros s.
  assert (x = 0 ∨ 0 < x)%N as [->|Hx] by lia; [by rewrite pretty_N_go_0|].
  rewrite pretty_N_go_step by done.
  etrans; [|apply IH; by apply N.div_lt]. cbn. lia.
Qed.

Lemma pretty_N_shape (x : N) : allDigits (pretty x) ∧ pretty x ≠ "".
Proof.
  unfold pretty, pretty_N. case_decide as Hx.
  - split; [|done]. cbn. split; [|done]. unfold isDigit. cbn. lia.
  - split; [by apply pretty_N_go_digits|].
    rewrite pretty_N_go_step by lia. intros Heq.
    pose proof (pretty_N_go_length (x `div` 10)
                  (String (pretty_N_char (x `mod` 10)) "")) as Hlen.
    rewrite Heq in Hlen. cbn in Hlen. lia.
Qed.

(** A chain id prints as digits, with a dash in front if it is negative. *)
Lemma pretty_Z_shape (z : Z) :
  ∃ d, allDigits d ∧ d ≠ "" ∧ (pretty z = d ∨ pretty z = String "-" d).
Proof.
  destruct z as [|p|p]; unfold pretty, pretty_Z.
  - exists "0". split; [|split; [done|by left]].
    cbn. split; [|done]. unfold isDigit. cbn. lia.
  - exists (pretty (N.pos p)). destruct (pretty_N_shape (N.pos p)). eauto.
  - exists (pretty (N.pos p)). destruct (pretty_N_shape (N.pos p)). eauto.
Qed.

(** Digits end at the first dash. *)
Lemma digits_split d : ∀ d' s s',
  allDigits d → allDigits d' →
  d +:+ String "-" s = d' +:+ String "-" s' → d = d' ∧ s = s'.
Proof.
  induction d as [|c d IH]; intros [|c' d'] s s' Hd Hd' Heq; cbn in *.
  - by injection Heq as ->.
  - injection Heq as Hc _. destruct Hd' as [Hc' _].
    by destruct (isDigit_not_dash c' Hc').
  - injection Heq as Hc _. destruct Hd as [Hc' _].
    by destruct (isDigit_not_dash c Hc').
  - injection Heq as -> Heq. destruct Hd as [_ Hd], Hd' as [_ Hd'].
    destruct (IH d' s s' Hd Hd' Heq) as [-> ->]. done.
Qed.

Lemma pretty_Z_dash_split (z z' : Z) s s' :
  pretty z +:+ "-" +:+ s = pretty z' +:+ "-" +:+ s' → z = z' ∧ s = s'.
Proof.
  destruct (pretty_Z_shape z) as (d & Hd & Hne & Hz).
  destruct (pretty_Z_shape z') as (d' & Hd' & Hne' & Hz').
  change ("-" +:+ s) with (String "-" s). change ("-" +:+ s') with (String "-" s').
  intros Heq.
  assert (pretty z = pretty z' ∧ s = s') as [Hp Hs].
  { destruct Hz as [Hz|Hz], Hz' as [Hz'|Hz']; rewrite Hz, Hz' in Heq |- *.
    - by apply digits_split.
    - destruct d as [|c d]; [done|]. cbn in Heq. injection Heq as Hc _.
      destruct Hd as [Hc' _]. by destruct (isDigit_not_dash c Hc').
    - destruct d' as [|c d']; [done|]. cbn in Heq. injection Heq as Hc _.
      destruct Hd' as [Hc' _]. by destruct (isDigit_not_dash c Hc').
    - cbn in Heq. injection Heq as Heq.
      destruct (digits_split d d' s s' Hd Hd' Heq) as [-> ->]. done. }
  split; [|done]. by apply (inj pretty).
Qed.

(** X6. The key of the attempted set and the key of the cache never
    disagree: two references have the same cache key exactly when they have
    the same query key, that is, the same chain id and the same lower-cased
    address.  No two different tokens share a cache key, so no token is
    skipped on account of another. *)
Theorem keys_identify_the_same_tokens c a c' a' :
  (cacheKey c a = cacheKey c' a' ↔ queryKey c a = queryKey c' a') ∧
  (cacheKey c a = cacheKey c' a' ↔ c = c' ∧ toLowerCase a = toLowerCase a').
Proof.
  assert (H : cacheKey c a = cacheKey c' a' ↔ c = c' ∧ toLowerCase a = toLowerCase a').
  { unfold cacheKey. split.
    - apply pretty_Z_dash_split.
    - by intros [-> ->]. }
  split; [|done]. rewrite H. unfold queryKey. split.
  - by intros [-> ->].
  - by intros [= -> ->].
Qed.

(** * Further properties of the hook's life *)

(** ** A fresh hook and a cold cache *)

(** X7. On an array none of whose references is marked or cached, a run
    requests exactly one image for each distinct token of the array: the keys
    attempted are the keys of the array, each once. *)
Theorem cold_run_requests_each_token_once getSvgAsset browser w :
  (∀ v, v ∈ vaults w →
        (cacheKey (chainId v) (address (asset v)) ∉ preloadedSet w) ∧
        truthy (queryCache w !! queryKey (chainId v) (address (asset v))) = false) →
  let r := preloadInBatches getSvgAsset browser w in
  (∀ k, k ∈ attemptedKeys (trace r) ↔ k ∈ keyOf <$> (item <$> vaults w)) ∧
  NoDup (attemptedKeys (trace r)) ∧
  length (attempts (trace r))
    = size (list_to_set (keyOf <$> (item <$> vaults w)) : gset string).
Proof.
  intros Hcold. cbn zeta.
  destruct (preloadInBatches_Sound getSvgAsset browser w) as (_ & Hnd & _).
  fold (attemptedKeys (trace (preloadInBatches getSvgAsset browser w))) in Hnd.
  assert (Hiff : ∀ k, k ∈ attemptedKeys (trace (preloadInBatches getSvgAsset browser w))
                      ↔ k ∈ keyOf <$> (item <$> vaults w)).
  { intros k. split.
    - intros (it & -> & Hit)%list_elem_of_fmap. apply list_elem_of_fmap_2.
      assert (Hsub : attempts (trace (preloadInBatches getSvgAsset browser w))
                       `sublist_of` item <$> vaults w).
      { rewrite attempts_requests.
        replace (item <$> vaults w) with ((λ x : Z * string * string, x.1)
                                      <$> (requestOf getSvgAsset <$> vaults w))
          by (by rewrite <- list_fmap_compose).
        apply fmap_sublist.
        destruct (preloadInBatches_run getSvgAsset browser w) as (_ & _ & ->).
        cbn [requests omap list_omap]. change (omap ?f ?l) with (requests l).
        rewrite requests_app. cbn [requests omap list_omap]. rewrite app_nil_r.
        rewrite <- (drop_0 (vaults w)) at 2. apply loop_requests. }
      by apply (elem_of_sublist _ _ it Hit Hsub).
    - intros (it & -> & (v & -> & Hv)%list_elem_of_fmap)%list_elem_of_fmap.
      destruct (preloadInBatches_covers getSvgAsset browser w v Hv) as [[Hs|Hs]|Hk];
        [|
         |done].
      + by destruct (Hcold v Hv) as [Hn _].
      + destruct (Hcold v Hv) as [_ Hf]. cbn in Hs. congruence. }
  split; [done|]. split; [done|].
  rewrite <- (length_fmap keyOf).
  change (keyOf <$> attempts (trace (preloadInBatches getSvgAsset browser w)))
    with (attemptedKeys (trace (preloadInBatches getSvgAsset browser w))).
  rewrite <- (size_list_to_set (C := gset string)) by done.
  f_equal. apply set_eq. intros k. rewrite !elem_of_list_to_set. apply Hiff.
Qed.

Lemma cold_run_requests_each_token_once_witness :
  let w := Sample.worldWith
             [Sample.vault "0xAB"; Sample.vault "0xcd"; Sample.vault "0xab"] ∅ in
  length (attempts (trace (preloadInBatches Sample.getSvgAsset Sample.allFail w)))
    = size (list_to_set (keyOf <$> (item <$> vaults w)) : gset string).
Proof.
  cbn zeta.
  apply (cold_run_requests_each_token_once Sample.getSvgAsset Sample.allFail
           (Sample.worldWith
              [Sample.vault "0xAB"; Sample.vault "0xcd"; Sample.vault "0xab"] ∅)).
  intros v Hv. split; [apply not_elem_of_empty|reflexivity].
Defined.

(** ** Timeouts of the hook *)










(** ** A batch is issued together *)

Lemma preloadBatch_issuedTogether getSvgAsset browser batch w rest q :
  trace (preloadBatch getSvgAsset browser batch w) = Batch batch :: rest →
  Forall (λ e, callOf e = None) q →
  issuedTogether getSvgAsset (batch, rest ++ q).
Proof.
  intros Ht Hq.
  destruct (preloadBatch_run getSvgAsset browser batch w) as (acts & _ & _ & Ht' & _).
  cbn zeta in Ht'. rewrite Ht' in Ht. injection Ht as <-.
  destruct (mapM_preloadImage getSvgAsset browser batch w)
    as (_ & _ & _ & _ & _ & Hsy & _). cbn zeta in Hsy.
  eexists _, (concat (settleTrace <$> settleOrder acts) ++ q).
  split; [by rewrite <- app_assoc|]. split; [exact Hsy|]. split.
  - apply mapM_preloadImage_requests.
  - rewrite requests_app, (requests_nil _ (settled_attempts _)).
    by rewrite (requests_nil _ (quiet_attempts _ Hq)).
Qed.

Lemma loop_issuedTogether getSvgAsset browser tail fuel :
  Forall (λ e, callOf e = None) tail →
  batchesOf tail = [] →
  ∀ i w,
  Forall (λ e, callOf e = None)
         (cut (trace (loop getSvgAsset browser fuel i w) ++ tail)).1 ∧
  Forall (issuedTogether getSvgAsset)
         (segments (trace (loop getSvgAsset browser fuel i w) ++ tail)).
Proof.
  intros Hq Hb.
  induction fuel as [|fuel IH]; intros i w;
    destruct (decide (i < length (vaults w))) as [Hi|Hi].
  - destruct (loop_out getSvgAsset browser i w Hi) as (_ & _ & ->).
    unfold segments. cbn [app]. rewrite cut_quiet by done. by split.
  - destruct (loop_done getSvgAsset browser 0 i w Hi) as (_ & _ & ->).
    unfold segments. cbn [app]. rewrite cut_quiet by done. by split.
  - destruct (loop_step getSvgAsset browser fuel i w Hi) as (_ & _ & ->).
    set (batch := slice i (i + batchSize) (vaults w)) in *.
    destruct (preloadBatch_shape getSvgAsset browser batch w)
      as (rest & Ht & Hbr & _). cbn zeta in Ht.
    pose proof (λ q, preloadBatch_issuedTogether getSvgAsset browser batch w rest q Ht)
      as Hiss.
    rewrite Ht.
    set (pause := if decide (i + batchSize < length (vaults w))
                  then [SetTimeout delay] else []).
    set (t2 := trace (loop getSvgAsset browser fuel (i + batchSize)
                        (final (preloadBatch getSvgAsset browser batch w)))).
    destruct (IH (i + batchSize) (final (preloadBatch getSvgAsset browser batch w)))
      as [IH1 IH2].
    fold t2 in IH1, IH2.
    assert (Hpq : Forall (λ e, callOf e = None) pause)
      by (unfold pause; case_decide; repeat constructor).
    assert (Hpb : batchesOf pause = []) by (unfold pause; by case_decide).
    replace (((Batch batch :: rest) ++ pause ++ t2) ++ tail)
      with (Batch batch :: (rest ++ pause) ++ (t2 ++ tail))
      by (cbn; by rewrite <- !app_assoc).
    unfold segments in *. cbn [cut].
    rewrite cut_app_quiet by (by rewrite batchesOf_app, Hbr, Hpb).
    destruct (cut (t2 ++ tail)) as [before segs] eqn:Hcut. cbn [fst snd] in *.
    split; [done|]. constructor; [|done].
    rewrite <- app_assoc. apply Hiss. by apply Forall_app.
  - destruct (loop_done getSvgAsset browser (S fuel) i w Hi) as (_ & _ & ->).
    unfold segments. cbn [app]. rewrite cut_quiet by done. by split.
Qed.

(** X11. Between two pacing points at most 15 images are requested, and
    they are requested together: in each batch's stretch of a run's trace, the
    requests come first, for vaults of that batch only and in their order,
    before any image of the batch gives its signal; so a batch never has more
    requests than vaults, and never more than 15. *)
Theorem batch_requests_are_issued_together getSvgAsset browser w :
  let r := preloadInBatches getSvgAsset browser w in
  Forall (issuedTogether getSvgAsset) (segments (trace r)) ∧
  Forall (λ seg, length (requests seg.2) ≤ length seg.1 ∧ length seg.1 ≤ 15)
         (segments (trace r)).
Proof.
  cbn zeta.
  assert (H : Forall (issuedTogether getSvgAsset)
                (segments (trace (preloadInBatches getSvgAsset browser w)))).
  { destruct (preloadInBatches_run getSvgAsset browser w) as (_ & _ & ->).
    destruct (loop_issuedTogether getSvgAsset browser
                [ConsoleLog "Finished preloading token images"]
                (length (vaults w))) with (i := 0) (w := w) as [_ Hs].
    { by repeat constructor. }
    { done. }
    unfold segments in *. cbn [cut]. by destruct (cut _). }
  split; [done|].
  apply Forall_forall. intros [batch evs] Hseg. cbn [fst snd].
  rewrite Forall_forall in H. destruct (H _ Hseg) as (issued & settled & Hev & _ & Hsub & Hno).
  cbn [fst snd] in *. split.
  - rewrite Hev, requests_app, Hno, app_nil_r.
    apply sublist_length in Hsub. by rewrite length_fmap in Hsub.
  - assert (Hb : batch ∈ batchesOf (trace (preloadInBatches getSvgAsset browser w))).
    { rewrite <- segments_batchesOf.
      by apply (list_elem_of_fmap_2 fst _ (batch, evs)). }
    rewrite preloadInBatches_batches in Hb.
    apply list_elem_of_lookup in Hb as [j Hj].
    apply chunksFrom_lookup in Hj as [_ ->].
    rewrite slice_length. unfold batchSize. lia.
Qed.

(** ** Unmounting *)

